(** * TuneTalez mobile: media URL resolution and the audio player component

    A shallow embedding of
    - [src/r2/config.ts] and [src/r2/services.ts] (the R2 URL helpers), and
    - [src/components/AudioPlayer.tsx] (the React audio player),
    together with the properties stated about them. *)

From Stdlib Require Import ZArith Lia Bool Ascii String.
From stdpp Require Import base option list strings gmap pretty.

Open Scope string_scope.

(** ** JavaScript values as far as the helpers need them *)

(** [url: string | undefined]: [None] is [undefined]. *)
Abbreviation jsstr := (option string).

(** JavaScript truthiness of a [string | undefined]: [undefined] and the
    empty string are falsy, every other string is truthy. *)
Definition truthy (u : jsstr) : bool :=
  match u with
  | None => false
  | Some "" => false
  | Some _ => true
  end.

(** [s.startsWith(p)] *)
Definition startsWith (s p : string) : bool := String.prefix p s.

(** ** src/r2/config.ts *)
Module R2Config.

Definition R2_PUBLIC_URL : string :=
  "https://pub-c6afb0e9c6e14b0f9d9f4aec83b93b1b.r2.dev".

Module R2_BUCKET.
Definition AUDIO : string := "tunetalez-audio".
Definition IMAGES : string := "tunetalez-images".
Definition THUMBNAILS : string := "tunetalez-thumbnails".
Definition PDFS : string := "tunetalez-pdfs".
End R2_BUCKET.

(** [getR2PublicUrl]: a path that starts with [http] is returned as it
    is, any other is appended to the public URL after a slash. *)
Definition getR2PublicUrl (path : string) : string :=
  if startsWith path "http" then path
  else R2_PUBLIC_URL +:+ "/" +:+ path.

Definition getThumbnailUrl (filename : string) : string :=
  getR2PublicUrl (R2_BUCKET.THUMBNAILS +:+ "/" +:+ filename).

Definition getAudioUrl (filename : string) : string :=
  getR2PublicUrl (R2_BUCKET.AUDIO +:+ "/" +:+ filename).

Definition getImageUrl (filename : string) : string :=
  getR2PublicUrl (R2_BUCKET.IMAGES +:+ "/" +:+ filename).

Definition getPdfUrl (filename : string) : string :=
  getR2PublicUrl (R2_BUCKET.PDFS +:+ "/" +:+ filename).

End R2Config.

(** ** src/r2/services.ts *)
Module R2Services.
Import R2Config.

Definition THUMBNAIL_PLACEHOLDER : string :=
  "https://via.placeholder.com/150x200/333333/FFFFFF?text=No+Cover".

Definition IMAGE_PLACEHOLDER : string :=
  "https://via.placeholder.com/400x300/333333/FFFFFF?text=No+Image".

Definition processThumbnailUrl (url : jsstr) : string :=
  match url with
  | None => THUMBNAIL_PLACEHOLDER
  | Some u =>
      if negb (truthy (Some u)) then THUMBNAIL_PLACEHOLDER
      else if startsWith u "http" then u
      else getThumbnailUrl u
  end.

Definition processAudioUrl (url : jsstr) : jsstr :=
  match url with
  | None => None
  | Some u =>
      if negb (truthy (Some u)) then None
      else if startsWith u "http" then Some u
      else Some (getAudioUrl u)
  end.

Definition processImageUrl (url : jsstr) : string :=
  match url with
  | None => IMAGE_PLACEHOLDER
  | Some u =>
      if negb (truthy (Some u)) then IMAGE_PLACEHOLDER
      else if startsWith u "http" then u
      else getImageUrl u
  end.

Definition processPdfUrl (url : jsstr) : jsstr :=
  match url with
  | None => None
  | Some u =>
      if negb (truthy (Some u)) then None
      else if startsWith u "http" then Some u
      else Some (getPdfUrl u)
  end.

(** A JavaScript value stored in a property of a book object.  The two
    URL properties are [string | undefined] by the type bound of
    [processBookUrls]; every other property is carried around opaquely. *)
Inductive jsval : Type :=
| JUndefined
| JString (s : string)
| JNumber (z : Z)
| JBool (b : bool)
| JDate (millis : Z)
| JStrings (l : list string).

(** Reading a [string | undefined] property: an absent property reads
    [undefined]. *)
Definition get_str (o : gmap string jsval) (k : string) : jsstr :=
  match o !! k with
  | Some (JString s) => Some s
  | _ => None
  end.

Definition of_jsstr (u : jsstr) : jsval :=
  match u with
  | Some s => JString s
  | None => JUndefined
  end.

(** [processBookUrls]: the object spread copies every own property of
    [book]; the two URL properties are then (over)written. *)
Definition processBookUrls (book : gmap string jsval) : gmap string jsval :=
  <["audioUrl" :=
      of_jsstr (if truthy (get_str book "audioUrl")
                then processAudioUrl (get_str book "audioUrl")
                else None)]>
    (<["thumbnailUrl" :=
         JString (processThumbnailUrl (get_str book "thumbnailUrl"))]> book).

End R2Services.

(** ** The words of the specification about references *)

(** A reference "has a URI scheme" when it begins with
    [ALPHA *( ALPHA / DIGIT / "+" / "-" / "." ) ":"] (RFC 3986, 3.1). *)
Module UriScheme.

Definition is_alpha (c : ascii) : bool :=
  let n := nat_of_ascii c in
  ((65 <=? n) && (n <=? 90) || (97 <=? n) && (n <=? 122))%nat.

Definition is_digit (c : ascii) : bool :=
  let n := nat_of_ascii c in ((48 <=? n) && (n <=? 57))%nat.

Definition is_scheme_char (c : ascii) : bool :=
  is_alpha c || is_digit c
  || Ascii.eqb c "+" || Ascii.eqb c "-" || Ascii.eqb c ".".

Fixpoint scheme_tail (s : string) : bool :=
  match s with
  | EmptyString => false
  | String c s' =>
      if Ascii.eqb c ":" then true
      else is_scheme_char c && scheme_tail s'
  end.

Definition has_uri_scheme (s : string) : bool :=
  match s with
  | EmptyString => false
  | String c s' => is_alpha c && scheme_tail s'
  end.

End UriScheme.

(** ** src/components/AudioPlayer.tsx *)
Module AudioPlayer.

(** *** The expo-av collaborator

    [Audio.Sound] objects live outside the component.  A sound is named
    by a handle (its index in the engine's table, in creation order);
    the engine keeps, for every sound ever created, the status that
    [getStatusAsync] and the status callback report.

    What is taken from the library's contract: a call takes effect when
    its promise settles; [playAsync], [pauseAsync], [stopAsync] and
    [setPositionAsync] reject on a sound that is not loaded, while
    [unloadAsync] and [getStatusAsync] do not; every call that is
    fulfilled hands the resulting status to the callback given to
    [createAsync] before the awaiting function runs on.  Whether a call
    is fulfilled or rejected otherwise is up to the environment. *)

Abbreviation handle := nat.

Record sound_status : Type := SoundStatus {
  uri : string;
  isLoaded : bool;
  playing : bool;
  positionMillis : Z;
  durationMillis : option Z   (* [None]: not known *)
}.

Abbreviation engine := (list sound_status).

(** The status object handed to [onPlaybackStatusUpdate] and returned by
    [getStatusAsync]. *)
Inductive av_status : Type :=
| StLoaded (pos : Z) (dur : option Z) (isPlaying : bool)
| StUnloaded (err : jsstr).

Definition status_of (e : engine) (h : handle) : av_status :=
  match e !! h with
  | Some s =>
      if isLoaded s
      then StLoaded (positionMillis s) (durationMillis s) (playing s)
      else StUnloaded None
  | None => StUnloaded None
  end.

(** Number of decoder resources the engine holds. *)
Definition held (e : engine) : nat := length (filter (fun s => isLoaded s = true) e).

Definition loaded (e : engine) (h : handle) : bool :=
  match e !! h with
  | Some s => isLoaded s
  | None => false
  end.

(** Transport operations on a loaded sound. *)
Inductive av_op : Type :=
| OpPlay
| OpPause
| OpStop
| OpSetPosition (p : Z).

Definition apply_op (op : av_op) (s : sound_status) : sound_status :=
  match op with
  | OpPlay => SoundStatus (uri s) true true (positionMillis s) (durationMillis s)
  | OpPause => SoundStatus (uri s) true false (positionMillis s) (durationMillis s)
  | OpStop => SoundStatus (uri s) true false 0 (durationMillis s)
  | OpSetPosition p => SoundStatus (uri s) true (playing s) p (durationMillis s)
  end.

Definition unloaded_status (s : sound_status) : sound_status :=
  SoundStatus (uri s) false false (positionMillis s) (durationMillis s).

(** How the awaited promise of an engine call settles; the payload of
    [Fulfilled] is the duration of the decoded media and is read by
    [createAsync] only. *)
Inductive outcome : Type :=
| Fulfilled (dur : option Z)
| Rejected.

(** A transport operation rejects when the environment makes it fail or
    when the sound is not loaded; otherwise it updates the sound. *)
Definition perform (o : outcome) (op : av_op) (h : handle) (e : engine)
  : option engine :=
  match o with
  | Rejected => None
  | Fulfilled _ =>
      match e !! h with
      | Some s => if isLoaded s then Some (<[h := apply_op op s]> e) else None
      | None => None
      end
  end.

(** [unloadAsync] releases the resource; on a sound that is not loaded
    it does nothing. *)
Definition unload (h : handle) (e : engine) : engine :=
  alter unloaded_status h e.

(** [createAsync ({uri}, {shouldPlay: false}, callback)]: a new sound,
    loaded, not playing, at position 0. *)
Definition fresh_sound (url : string) (dur : option Z) : sound_status :=
  SoundStatus url true false 0 dur.

(** Playback time passing on a sound: the position advances while it
    plays and playback halts at the end of the track. *)
Definition elapse (dt : Z) (s : sound_status) : sound_status :=
  if isLoaded s && playing s then
    let p := (positionMillis s + Z.max 0 dt)%Z in
    match durationMillis s with
    | Some d =>
        if (d <=? p)%Z
        then SoundStatus (uri s) true false d (Some d)
        else SoundStatus (uri s) true true p (Some d)
    | None => SoundStatus (uri s) true true p None
    end
  else s.

(** The engine calls the component issues, in program order. *)
Inductive call : Type :=
| CCreate (url : string)
| CUnload (h : handle)
| CPlay (h : handle)
| CPause (h : handle)
| CStop (h : handle)
| CSetPosition (h : handle) (p : Z)
| CGetStatus (h : handle).

(** *** The component *)

(** The six [useState] cells. *)
Record comp : Type := Comp {
  sound : option handle;
  isPlaying : bool;
  isLoading : bool;
  position : Z;
  duration : Z;
  error : jsstr
}.

Definition initial_comp : comp := Comp None false false 0 0 None.

(** An [async] function suspended at an [await], with the variables of
    the render it closed over that it still needs. *)
Inductive task : Type :=
| LoadUnloading (h : handle) (url : string)  (* loadSound, at unloadAsync *)
| LoadCreating (url : string)                (* loadSound, at createAsync *)
| TogglePausing (h : handle)                 (* togglePlayPause, at pauseAsync *)
| ToggleSeeking (h : handle)                 (* togglePlayPause, at setPositionAsync *)
| TogglePlaying (h : handle)                 (* togglePlayPause, at playAsync *)
| StopStopping (h : handle)                  (* stopAudio, at stopAsync *)
| StopSeeking (h : handle)                   (* stopAudio, at setPositionAsync *)
| RestartSeeking (h : handle) (wasPlaying : bool) (* restartAudio, at setPositionAsync *)
| RestartPlaying (h : handle)                (* restartAudio, at playAsync *)
| PollStatus (h : handle)                    (* interval callback, at getStatusAsync *)
| CleanupUnloading (h : handle).             (* effect cleanup, unloadAsync not awaited *)

Record world : Type := World {
  audioUrl : string;                 (* the prop *)
  st : comp;                         (* the committed state *)
  mounted : bool;
  cleanupSound : option handle;      (* [sound] closed over by the cleanup
                                        of the [audioUrl] effect *)
  interval : option (option handle); (* the running interval, with the
                                        [sound] its callback closed over *)
  eng : engine;
  tasks : list task;
  calls : list call;
  unhandled : nat                    (* rejections no handler caught *)
}.

Definition with_st (f : comp -> comp) (w : world) : world :=
  World (audioUrl w) (f (st w)) (mounted w) (cleanupSound w) (interval w)
        (eng w) (tasks w) (calls w) (unhandled w).

(** A state setter of an unmounted component does nothing. *)
Definition setState (f : comp -> comp) (w : world) : world :=
  if mounted w then with_st f w else w.

Definition setSound (v : option handle) : world -> world :=
  setState (fun c => Comp v (isPlaying c) (isLoading c) (position c) (duration c) (error c)).
Definition setIsPlaying (v : bool) : world -> world :=
  setState (fun c => Comp (sound c) v (isLoading c) (position c) (duration c) (error c)).
Definition setIsLoading (v : bool) : world -> world :=
  setState (fun c => Comp (sound c) (isPlaying c) v (position c) (duration c) (error c)).
Definition setPosition (v : Z) : world -> world :=
  setState (fun c => Comp (sound c) (isPlaying c) (isLoading c) v (duration c) (error c)).
Definition setDuration (v : Z) : world -> world :=
  setState (fun c => Comp (sound c) (isPlaying c) (isLoading c) (position c) v (error c)).
Definition setError (v : jsstr) : world -> world :=
  setState (fun c => Comp (sound c) (isPlaying c) (isLoading c) (position c) (duration c) v).

Definition set_eng (e : engine) (w : world) : world :=
  World (audioUrl w) (st w) (mounted w) (cleanupSound w) (interval w)
        e (tasks w) (calls w) (unhandled w).
Definition set_tasks (ts : list task) (w : world) : world :=
  World (audioUrl w) (st w) (mounted w) (cleanupSound w) (interval w)
        (eng w) ts (calls w) (unhandled w).
Definition set_interval (i : option (option handle)) (w : world) : world :=
  World (audioUrl w) (st w) (mounted w) (cleanupSound w) i
        (eng w) (tasks w) (calls w) (unhandled w).
Definition set_cleanupSound (s : option handle) (w : world) : world :=
  World (audioUrl w) (st w) (mounted w) s (interval w)
        (eng w) (tasks w) (calls w) (unhandled w).
Definition set_props (url : string) (w : world) : world :=
  World url (st w) (mounted w) (cleanupSound w) (interval w)
        (eng w) (tasks w) (calls w) (unhandled w).
Definition set_mounted (b : bool) (w : world) : world :=
  World (audioUrl w) (st w) b (cleanupSound w) (interval w)
        (eng w) (tasks w) (calls w) (unhandled w).
Definition unhandled_rejection (w : world) : world :=
  World (audioUrl w) (st w) (mounted w) (cleanupSound w) (interval w)
        (eng w) (tasks w) (calls w) (S (unhandled w)).

(** Issue the engine call [c] and suspend as [t] until it settles. *)
Definition await (c : call) (t : task) (w : world) : world :=
  World (audioUrl w) (st w) (mounted w) (cleanupSound w) (interval w)
        (eng w) (tasks w ++ [t])%list (calls w ++ [c])%list (unhandled w).

(** [onPlaybackStatusUpdate] *)
Definition onPlaybackStatusUpdate (status : av_status) (w : world) : world :=
  match status with
  | StLoaded pos dur pl =>
      let w := setPosition pos w in
      let w := setDuration (default 0%Z dur) w in   (* durationMillis || 0 *)
      setIsPlaying pl w
  | StUnloaded err =>
      if truthy err
      then setError (Some ("Playback error: " +:+ default "" err)) w
      else w
  end.

(** The engine reports the status of [h] to the callback that
    [createAsync] registered. *)
Definition report (h : handle) (w : world) : world :=
  onPlaybackStatusUpdate (status_of (eng w) h) w.

(** [loadSound], up to its first [await]; [sound] and [audioUrl] are
    those of the render that created the closure. *)
Definition loadSound (w : world) : world :=
  let snd := sound (st w) in
  let url := audioUrl w in
  let w := setIsLoading true w in
  let w := setError None w in
  match snd with
  | Some h => await (CUnload h) (LoadUnloading h url) w
  | None => await (CCreate url) (LoadCreating url) w
  end.

(** The [catch] block of [loadSound]. *)
Definition loadSound_catch (w : world) : world :=
  let w := setError (Some "Failed to load audio") w in
  setIsLoading false w.

(** [togglePlayPause], up to its first [await]. *)
Definition togglePlayPause (w : world) : world :=
  let c := st w in
  match sound c with
  | None => w
  | Some h =>
      if isPlaying c then await (CPause h) (TogglePausing h) w
      else if (duration c <=? position c)%Z && (0 <? duration c)%Z
      then await (CSetPosition h 0) (ToggleSeeking h) w
      else await (CPlay h) (TogglePlaying h) w
  end.

Definition togglePlayPause_catch (w : world) : world :=
  setError (Some "Failed to play/pause audio") w.

(** [stopAudio], up to its first [await]. *)
Definition stopAudio (w : world) : world :=
  match sound (st w) with
  | None => w
  | Some h => await (CStop h) (StopStopping h) w
  end.

(** [restartAudio], up to its first [await]. *)
Definition restartAudio (w : world) : world :=
  let c := st w in
  match sound c with
  | None => w
  | Some h => await (CSetPosition h 0) (RestartSeeking h (isPlaying c)) w
  end.

(** The cleanup of the [audioUrl] effect: [if (sound) sound.unloadAsync()]
    on the [sound] it closed over; the promise is dropped. *)
Definition soundCleanup (w : world) : world :=
  match cleanupSound w with
  | Some h => await (CUnload h) (CleanupUnloading h) w
  | None => w
  end.

(** The interval callback, up to its [await]. *)
Definition intervalCallback (snd : option handle) (w : world) : world :=
  match snd with
  | Some h => await (CGetStatus h) (PollStatus h) w
  | None => w
  end.

(** A suspended function runs on when its promise settles, until its
    next [await] or its end. *)
Definition settle (t : task) (o : outcome) (w : world) : world :=
  match t with
  | LoadUnloading h url =>
      match o with
      | Fulfilled _ =>
          let w := set_eng (unload h (eng w)) w in
          let w := report h w in
          await (CCreate url) (LoadCreating url) w
      | Rejected => loadSound_catch w
      end
  | LoadCreating url =>
      match o with
      | Fulfilled dur =>
          let newSound := length (eng w) in
          let w := set_eng (eng w ++ [fresh_sound url dur])%list w in
          let w := report newSound w in
          let w := setSound (Some newSound) w in
          setIsLoading false w
      | Rejected => loadSound_catch w
      end
  | TogglePausing h =>
      match perform o OpPause h (eng w) with
      | Some e => report h (set_eng e w)
      | None => togglePlayPause_catch w
      end
  | ToggleSeeking h =>
      match perform o (OpSetPosition 0) h (eng w) with
      | Some e =>
          let w := report h (set_eng e w) in
          await (CPlay h) (TogglePlaying h) w
      | None => togglePlayPause_catch w
      end
  | TogglePlaying h =>
      match perform o OpPlay h (eng w) with
      | Some e => report h (set_eng e w)
      | None => togglePlayPause_catch w
      end
  | StopStopping h =>
      match perform o OpStop h (eng w) with
      | Some e =>
          let w := report h (set_eng e w) in
          await (CSetPosition h 0) (StopSeeking h) w
      | None => w                       (* caught, logged *)
      end
  | StopSeeking h =>
      match perform o (OpSetPosition 0) h (eng w) with
      | Some e => report h (set_eng e w)
      | None => w
      end
  | RestartSeeking h wasPlaying =>
      match perform o (OpSetPosition 0) h (eng w) with
      | Some e =>
          let w := report h (set_eng e w) in
          if negb wasPlaying then await (CPlay h) (RestartPlaying h) w else w
      | None => w
      end
  | RestartPlaying h =>
      match perform o OpPlay h (eng w) with
      | Some e => report h (set_eng e w)
      | None => w
      end
  | PollStatus h =>
      match o with
      | Fulfilled _ =>
          let status := status_of (eng w) h in
          let w := report h w in
          match status with
          | StLoaded pos dur _ =>
              let w := setPosition pos w in
              setDuration (default 0%Z dur) w
          | StUnloaded _ => w
          end
      | Rejected => unhandled_rejection w
      end
  | CleanupUnloading h =>
      match o with
      | Fulfilled _ => report h (set_eng (unload h (eng w)) w)
      | Rejected => unhandled_rejection w
      end
  end.

(** What the render function shows. *)
Inductive view : Type :=
| ErrorView (message : string)   (* the message and the Retry button *)
| LoadingView                    (* the activity indicator *)
| ControlsView (pauseIcon : bool). (* progress, restart, play/pause, stop *)

Definition render (c : comp) : view :=
  if truthy (error c) then ErrorView (default "" (error c))
  else if isLoading c then LoadingView
  else ControlsView (isPlaying c).

Inductive button : Type := BtnRestart | BtnPlayPause | BtnStop | BtnRetry.

(** A press reaches the handler of a button only while the button is
    rendered. *)
Definition press (b : button) (w : world) : world :=
  match render (st w), b with
  | ErrorView _, BtnRetry => loadSound w
  | ControlsView _, BtnRestart => restartAudio w
  | ControlsView _, BtnPlayPause => togglePlayPause w
  | ControlsView _, BtnStop => stopAudio w
  | _, _ => w
  end.

(** What can happen to a mounted player. *)
Inductive event : Type :=
| EvSetUrl (url : string)            (* the parent renders another [audioUrl] *)
| EvUnmount                          (* the parent stops rendering the player *)
| EvPress (b : button)
| EvSettle (i : nat) (o : outcome)   (* the promise of pending task [i] settles *)
| EvTick                             (* the interval fires *)
| EvElapse (h : handle) (dt : Z)     (* playback time passes on [h] *)
| EvPlaybackError (h : handle) (msg : string). (* the decoder of [h] fails *)

Definition handle_event (ev : event) (w : world) : world :=
  match ev with
  | EvSetUrl url =>
      if mounted w && negb (String.eqb url (audioUrl w)) then
        let w := set_props url w in
        let w := soundCleanup w in
        let w := loadSound w in
        set_cleanupSound (sound (st w)) w
      else w
  | EvUnmount =>
      if mounted w then
        let w := soundCleanup w in
        let w := set_interval None w in      (* clearInterval *)
        set_mounted false w
      else w
  | EvPress b => if mounted w then press b w else w
  | EvSettle i o =>
      match tasks w !! i with
      | Some t => settle t o (set_tasks (delete i (tasks w)) w)
      | None => w
      end
  | EvTick =>
      match interval w with
      | Some snd => intervalCallback snd w
      | None => w
      end
  | EvElapse h dt =>
      if loaded (eng w) h
      then report h (set_eng (alter (elapse dt) h (eng w)) w)
      else w
  | EvPlaybackError h msg =>
      if loaded (eng w) h
      then onPlaybackStatusUpdate (StUnloaded (Some msg))
             (set_eng (unload h (eng w)) w)
      else w
  end.

(** The [isPlaying, sound] effect: when a render committed a change of
    either, the old interval is cleared and, if [isPlaying], a new one
    is set whose callback closes over the new [sound]. *)
Definition pollingEffect (prev : comp) (w : world) : world :=
  if mounted w
     && negb (bool_decide ((isPlaying prev, sound prev)
                           = (isPlaying (st w), sound (st w))))
  then set_interval (if isPlaying (st w) then Some (sound (st w)) else None) w
  else w.

Definition step (ev : event) (w : world) : world :=
  pollingEffect (st w) (handle_event ev w).

(** Mounting: the first render, then both effects run. *)
Definition mount (url : string) : world :=
  let w := World url initial_comp true None None [] [] [] 0 in
  let w := loadSound w in
  set_cleanupSound (sound (st w)) w.

Definition run (evs : list event) (w : world) : world :=
  foldl (fun w ev => step ev w) w evs.

Definition reachable (w : world) : Prop :=
  exists url evs, w = run evs (mount url).

(** The specification's playback state, read off the component state in
    the order the render function tests it: the error first, then the
    loading flag, then the controls.  With the controls shown the player
    is idle without a sound, playing when the play flag is set, and
    otherwise halted: ready at position 0, paused further in. *)
Inductive PlaybackState : Type :=
| Idle
| Loading
| Ready
| Playing
| Paused
| Error (message : string).

Definition playbackState (c : comp) : PlaybackState :=
  match render c with
  | ErrorView m => Error m
  | LoadingView => Loading
  | ControlsView _ =>
      match sound c with
      | None => Idle
      | Some _ =>
          if isPlaying c then Playing
          else if (position c =? 0)%Z then Ready
          else Paused
      end
  end.

Definition polling (w : world) : bool :=
  match interval w with Some _ => true | None => false end.

End AudioPlayer.

(** ** Runs and invariants of the player *)
Module PlayerRuns.
Import AudioPlayer.

(** The interval exists exactly while the component is mounted with its
    play flag set, and its callback closed over the current [sound]. *)
Definition poll_inv (w : world) : Prop :=
  interval w
  = if mounted w && isPlaying (st w) then Some (sound (st w)) else None.

(** Tasks that never start playback: those of [loadSound], of the
    effect cleanup and of the interval callback. *)
Definition quiet (t : task) : Prop :=
  match t with
  | LoadUnloading _ _ | LoadCreating _ | PollStatus _ | CleanupUnloading _ => True
  | _ => False
  end.

(** Nothing plays and nothing is about to. *)
Definition silent (w : world) : Prop :=
  isPlaying (st w) = false
  /\ Forall (fun s => playing s = false) (eng w)
  /\ Forall quiet (tasks w).

(** Before the first sound is stored the player is silent. *)
Definition idle_inv (w : world) : Prop :=
  sound (st w) = None -> silent w.

(** The tasks of [loadSound]. *)
Definition is_load (t : task) : bool :=
  match t with
  | LoadUnloading _ _ | LoadCreating _ => true
  | _ => false
  end.

Definition loads (ts : list task) : list task :=
  filter (fun t => is_load t = true) ts.

Definition load_pending (w : world) : bool := existsb is_load (tasks w).

(** The events that call [loadSound]: another [audioUrl], and Retry
    while the error is shown. *)
Definition issues_load (ev : event) (w : world) : bool :=
  match ev with
  | EvSetUrl url => mounted w && negb (String.eqb url (audioUrl w))
  | EvPress BtnRetry =>
      mounted w
      && match render (st w) with ErrorView _ => true | _ => false end
  | _ => false
  end.

(** A run is serial when [loadSound] is never called while an earlier
    call of it is still suspended. *)
Fixpoint serial (evs : list event) (w : world) : bool :=
  match evs with
  | [] => true
  | ev :: evs' =>
      negb (issues_load ev w && load_pending w) && serial evs' (step ev w)
  end.

(** [w'] has the interval and the mount flag of [w], and a stored sound
    if [w] has one: what every handler but the unmounting preserves. *)
Definition keeps (w w' : world) : Prop :=
  interval w' = interval w
  /\ mounted w' = mounted w
  /\ (sound (st w') = None -> sound (st w) = None).

(** The interval that is running once the polling effect has run. *)
Definition next_interval (prev : comp) (w : world) : option (option handle) :=
  interval (pollingEffect prev w).

(** Every loaded sound of the engine is [o]. *)
Definition loaded_within (e : engine) (o : option handle) : Prop :=
  forall h, loaded e h = true -> o = Some h.

(** In a serial run at most one load is suspended, and the loaded
    sounds are: the one the suspended load is about to release; none
    while it creates; the stored [sound] otherwise. *)
Definition serial_inv (w : world) : Prop :=
  exists o,
    loaded_within (eng w) o
    /\ match loads (tasks w) with
       | [] => mounted w = true -> o = sound (st w)
       | [LoadUnloading h _] =>
           o = Some h /\ (mounted w = true -> sound (st w) = Some h)
       | [LoadCreating _] => o = None
       | _ => False
       end.

(** [w'] loads no sound that [w] has not loaded, suspends the same
    loads, stores the same sound and is mounted only if [w] is: what
    every handler but [loadSound] does to a world. *)
Definition calm (w w' : world) : Prop :=
  (forall h, loaded (eng w') h = true -> loaded (eng w) h = true)
  /\ loads (tasks w') = loads (tasks w)
  /\ (mounted w' = true -> mounted w = true)
  /\ sound (st w') = sound (st w).

End PlayerRuns.

(** ** Sample data *)
Module Samples.
Import R2Services.

Definition sample_book : gmap string jsval :=
  <["id" := JString "b1"]>
    (<["title" := JString "Alice"]>
       (<["audioUrl" := JString "alice.mp3"]>
          (<["likes" := JNumber 3]> ∅))).

End Samples.

(** ** When the controls are shown *)
Module PlayerGuards.
Import AudioPlayer.

(** Without a sound the component shows the error or the loading
    view. *)
Definition busy (c : comp) : Prop :=
  sound c = None -> truthy (error c) = true \/ isLoading c = true.

End PlayerGuards.

(** ** Runs in which the parent keeps the audio URL *)
Module PlayerTeardown.
Import AudioPlayer.

(** Events other than a new [audioUrl] prop. *)
Definition url_kept (ev : event) : bool :=
  match ev with
  | EvSetUrl _ => false
  | _ => true
  end.

End PlayerTeardown.

(** ** src/r2/services.ts, the remaining helpers *)
Module R2Files.
Import R2Services.

(** [s.endsWith(p)]: [p] is [s] or ends a tail of [s]. *)
Fixpoint endsWith (s p : string) : bool :=
  String.eqb s p
  || match s with
     | EmptyString => false
     | String _ s' => endsWith s' p
     end.

(** [c.toLowerCase()] on a character of the ASCII range; other bytes are
    kept. *)
Definition lower_ascii (c : ascii) : ascii :=
  let n := nat_of_ascii c in
  if ((65 <=? n) && (n <=? 90))%nat then ascii_of_nat (n + 32) else c.

(** [s.toLowerCase()], for strings of ASCII characters. *)
Fixpoint toLowerCase (s : string) : string :=
  match s with
  | EmptyString => EmptyString
  | String c s' => String (lower_ascii c) (toLowerCase s')
  end.

Definition audioExtensions : list string := [".mp3"; ".wav"; ".ogg"; ".aac"; ".m4a"].
Definition imageExtensions : list string :=
  [".jpg"; ".jpeg"; ".png"; ".gif"; ".webp"; ".svg"].

Definition isAudioUrl (url : string) : bool :=
  existsb (fun ext => endsWith (toLowerCase url) ext) audioExtensions.

Definition isImageUrl (url : string) : bool :=
  existsb (fun ext => endsWith (toLowerCase url) ext) imageExtensions.

Definition isPdfUrl (url : string) : bool :=
  endsWith (toLowerCase url) ".pdf".

(** Two extensions neither of which ends the other. *)
Definition unrelated (e1 e2 : string) : bool :=
  negb (endsWith e1 e2) && negb (endsWith e2 e1).

Definition sampleAudios : list string :=
  [ "https://ia800304.us.archive.org/16/items/aliceinwonderland_1102_librivox/aliceinwonderland_01_carroll.mp3";
    "https://ia800304.us.archive.org/16/items/aliceinwonderland_1102_librivox/aliceinwonderland_02_carroll.mp3";
    "https://ia802707.us.archive.org/29/items/the_adventures_of_sherlock_holmes_1307_librivox/adventuresofsherlockholmes_01_doyle.mp3";
    "https://ia802707.us.archive.org/29/items/the_adventures_of_sherlock_holmes_1307_librivox/adventuresofsherlockholmes_02_doyle.mp3";
    "https://ia801403.us.archive.org/11/items/pride_and_prejudice_librivox/prideandprejudice_01_austen.mp3" ].

(** [sampleAudios[i]] for an integer [i]: [undefined] outside the array. *)
Definition sampleAt (i : Z) : jsval :=
  if (i <? 0)%Z then JUndefined
  else of_jsstr (sampleAudios !! Z.to_nat i).

Section AddSampleAudioUrls.

(** [parseInt(s, 10)]: the integer that the number returned stands for;
    [None] when it is [NaN], or an infinity, whose remainder is [NaN]. *)
Variable parseInt : string -> option Z.

(** [parseInt(book.id, 10) % sampleAudios.length || index % sampleAudios.length]:
    the remainder has the sign of the parsed number; [NaN] and [0] are
    falsy. *)
Definition audioIndex (book : gmap string jsval) (index : nat) : Z :=
  let byIndex := (Z.of_nat index mod 5)%Z in
  match get_str book "id" with
  | Some id =>
      match parseInt id with
      | Some n => if (Z.rem n 5 =? 0)%Z then byIndex else Z.rem n 5
      | None => byIndex
      end
  | None => byIndex
  end.

Definition addSampleAudioUrl (index : nat) (book : gmap string jsval)
  : gmap string jsval :=
  if negb (truthy (get_str book "audioUrl"))
  then <["audioUrl" := sampleAt (audioIndex book index)]> book
  else book.

Definition addSampleAudioUrls (books : list (gmap string jsval))
  : list (gmap string jsval) :=
  imap addSampleAudioUrl books.

End AddSampleAudioUrls.

End R2Files.

(** ** The Firestore services, books with audio *)
Module FirebaseServices.
Import R2Services.

(** [l.slice(0, count)] for an integer [count]; a negative one counts
    from the end. *)
Definition slice0 {A : Type} (count : Z) (l : list A) : list A :=
  if (count <? 0)%Z then take (length l - Z.to_nat (- count)) l
  else take (Z.to_nat count) l.

(** [getBooksWithAudio], from the answer of the query on: [converted]
    is [querySnapshot.docs.map(convertBookDoc)], or [None] when the
    query or the conversion threw, which the [catch] turns into [[]]. *)
Definition getBooksWithAudio (converted : option (list (gmap string jsval)))
    (count : Z) : list (gmap string jsval) :=
  match converted with
  | Some books =>
      map processBookUrls
        (map (fun book =>
                <["audioUrl" :=
                    JString (if truthy (get_str book "audioUrl")
                             then default "" (get_str book "audioUrl")
                             else "")]> book)
           (slice0 count
              (List.filter (fun book => truthy (get_str book "audioUrl"))
                 books)))
  | None => []
  end.

End FirebaseServices.

(** ** Sample books and ids *)
Module BookSamples.
Import R2Services.

(** [parseInt] on the ids of the sample books. *)
Definition sample_parseInt (s : string) : option Z :=
  if String.eqb s "7" then Some 7%Z
  else if String.eqb s "-3" then Some (-3)%Z
  else None.

Definition silent_book : gmap string jsval :=
  <["id" := JString "7"]> (<["title" := JString "Emma"]> ∅).

Definition audio_book : gmap string jsval :=
  <["id" := JString "x9"]>
    (<["audioUrl" := JString "https://cdn.example/emma.mp3"]> ∅).

Definition negative_book : gmap string jsval :=
  <["id" := JString "-3"]> (<["audioUrl" := JString ""]> ∅).

End BookSamples.

(** ** src/components/AudioPlayer.tsx, the time label *)
Module AudioPlayerView.

(** [Number.MAX_SAFE_INTEGER]: up to it every whole number is a
    double. *)
Definition MAX_SAFE_INTEGER : Z := (2 ^ 53 - 1)%Z.

(** [formatTime], for a whole number of milliseconds from 0 to
    [MAX_SAFE_INTEGER], as positions and durations are; there the
    doubles of the code compute what the integers do.  The quotient by
    1000 is below 2^44, where doubles lie 2^-9 apart or closer, and is
    a whole number or at least 1/1000 away from one, so rounding it
    does not reach the next whole number and [Math.floor] gives
    [Z.div]; likewise for the quotient by 60.  [%] is exact and is
    [Z.rem], and a whole number below 10^21 in a template literal is
    written in decimal.  Beyond [MAX_SAFE_INTEGER] the division of the
    code rounds and this definition does not follow it. *)
Definition formatTime (milliseconds : Z) : string :=
  let totalSeconds := (milliseconds / 1000)%Z in
  let minutes := (totalSeconds / 60)%Z in
  let seconds := Z.rem totalSeconds 60 in
  pretty minutes +:+ ":"
    +:+ (if (seconds <? 10)%Z then "0" else "") +:+ pretty seconds.

End AudioPlayerView.

(** ** src/components/BookCard.tsx, the audio toggle *)
Module BookCard.

Record state : Type := State {
  isAudioPlaying : bool;
  showAudioPlayer : bool
}.

Definition initial : state := State false false.

Definition toggleAudio (s : state) : state :=
  State (negb (isAudioPlaying s)) (negb (showAudioPlayer s)).

(** The [onClose] handed to the player. *)
Definition onClose (s : state) : state := State false false.

(** The audio button is rendered when [book.audioUrl] is truthy, and the
    player when moreover [showAudioPlayer] is set. *)
Definition audioButtonShown (audioUrl : jsstr) : bool := truthy audioUrl.

Definition playerShown (audioUrl : jsstr) (s : state) : bool :=
  showAudioPlayer s && truthy audioUrl.

(** The icon of the audio button. *)
Definition audioIcon (s : state) : string :=
  if isAudioPlaying s then "pause-circle" else "play-circle".

Inductive event : Type :=
| PressAudioButton
| ClosePlayer.

(** A press reaches a handler only while its button is rendered; the
    close button is the player's. *)
Definition step (audioUrl : jsstr) (ev : event) (s : state) : state :=
  match ev with
  | PressAudioButton => if audioButtonShown audioUrl then toggleAudio s else s
  | ClosePlayer => if playerShown audioUrl s then onClose s else s
  end.

Definition run (audioUrl : jsstr) (evs : list event) (s : state) : state :=
  foldl (fun s ev => step audioUrl ev s) s evs.

End BookCard.

(** ** The book screen, the URL handed to the player *)
Module BookScreen.
Import R2Services.

(** [selectedChapter?.audioUrl || book.audioUrl || ''] *)
Definition selectedAudio (chapterAudio bookAudio : jsstr) : string :=
  if truthy chapterAudio then default "" chapterAudio
  else if truthy bookAudio then default "" bookAudio
  else "".

(** The [audioUrl] prop:
    [processAudioUrl(selectedChapter?.audioUrl || book.audioUrl || '')]. *)
Definition playerAudioUrl (chapterAudio bookAudio : jsstr) : jsstr :=
  processAudioUrl (Some (selectedAudio chapterAudio bookAudio)).

End BookScreen.

(** ** Properties of the URL helpers *)
Module ResolverProperties.
Import R2Config R2Services UriScheme Samples.

Lemma startsWith_http_truthy (u : string) :
  startsWith u "http" = true -> truthy (Some u) = true.
Proof. destruct u; [discriminate | reflexivity]. Qed.

Lemma nonempty_truthy (u : string) : u <> "" -> truthy (Some u) = true.
Proof. destruct u; [congruence | reflexivity]. Qed.

(** The bucket names do not start with [http], so the bucket helpers
    always prefix the public URL. *)
Lemma getAudioUrl_eq u :
  getAudioUrl u = R2_PUBLIC_URL +:+ "/" +:+ R2_BUCKET.AUDIO +:+ "/" +:+ u.
Proof. reflexivity. Qed.
Lemma getPdfUrl_eq u :
  getPdfUrl u = R2_PUBLIC_URL +:+ "/" +:+ R2_BUCKET.PDFS +:+ "/" +:+ u.
Proof. reflexivity. Qed.
Lemma getImageUrl_eq u :
  getImageUrl u = R2_PUBLIC_URL +:+ "/" +:+ R2_BUCKET.IMAGES +:+ "/" +:+ u.
Proof. reflexivity. Qed.
Lemma getThumbnailUrl_eq u :
  getThumbnailUrl u = R2_PUBLIC_URL +:+ "/" +:+ R2_BUCKET.THUMBNAILS +:+ "/" +:+ u.
Proof. reflexivity. Qed.

Lemma public_url_http (rest : string) :
  startsWith (R2_PUBLIC_URL +:+ rest) "http" = true.
Proof. reflexivity. Qed.


(** What each resolver does with a truthy reference. *)
Lemma processAudioUrl_http u :
  startsWith u "http" = true -> processAudioUrl (Some u) = Some u.
Proof.
  intros H. unfold processAudioUrl.
  by rewrite (startsWith_http_truthy u H), H.
Qed.



Lemma processThumbnailUrl_http u :
  startsWith u "http" = true -> processThumbnailUrl (Some u) = u.
Proof.
  intros H. unfold processThumbnailUrl.
  by rewrite (startsWith_http_truthy u H), H.
Qed.

(** Every string a resolver returns starts with [http]. *)
Lemma processAudioUrl_result r u :
  processAudioUrl r = Some u -> startsWith u "http" = true.
Proof.
  unfold processAudioUrl. destruct r as [v|]; [|done].
  destruct (truthy (Some v)); simpl; [|done].
  destruct (startsWith v "http") eqn:E; intros [= <-]; [done|].
  rewrite getAudioUrl_eq. apply public_url_http.
Qed.



Lemma processThumbnailUrl_result r : startsWith (processThumbnailUrl r) "http" = true.
Proof.
  unfold processThumbnailUrl. destruct r as [v|]; [|done].
  destruct (truthy (Some v)); simpl; [|done].
  destruct (startsWith v "http") eqn:E; [done|].
  rewrite getThumbnailUrl_eq. apply public_url_http.
Qed.




(** C8, at the bare file name [httpbook.mp3]: it has no URI scheme and
    is not empty, yet every resolver returns it as it is instead of
    joining it to the public URL and the bucket of its category, which
    is what the claim says and what the bucket helper of the same name
    returns for it. *)
Lemma bare_name_starting_http_is_not_joined :
  has_uri_scheme "httpbook.mp3" = false
  /\ "httpbook.mp3" <> ""
  /\ processAudioUrl (Some "httpbook.mp3") = Some "httpbook.mp3"
  /\ processAudioUrl (Some "httpbook.mp3")
     <> Some (R2_PUBLIC_URL +:+ "/" +:+ R2_BUCKET.AUDIO +:+ "/" +:+ "httpbook.mp3")
  /\ getAudioUrl "httpbook.mp3"
     = R2_PUBLIC_URL +:+ "/" +:+ R2_BUCKET.AUDIO +:+ "/" +:+ "httpbook.mp3"
  /\ processImageUrl (Some "httpbook.mp3") = "httpbook.mp3"
  /\ processThumbnailUrl (Some "httpbook.mp3") = "httpbook.mp3"
  /\ processPdfUrl (Some "httpbook.mp3") = Some "httpbook.mp3".
Proof.
  split; [reflexivity|]. split; [discriminate|]. split; [reflexivity|].
  split; [discriminate|]. repeat split.
Qed.

(** What the resolvers do by their test: for every non-empty reference
    that does not start with [http], each returns the public URL, a
    slash, the bucket of its category, a slash, and the reference. *)
Theorem resolve_bare_reference (u : string) :
  u <> "" ->
  startsWith u "http" = false ->
  processAudioUrl (Some u)
    = Some (R2_PUBLIC_URL +:+ "/" +:+ R2_BUCKET.AUDIO +:+ "/" +:+ u)
  /\ processImageUrl (Some u)
    = R2_PUBLIC_URL +:+ "/" +:+ R2_BUCKET.IMAGES +:+ "/" +:+ u
  /\ processThumbnailUrl (Some u)
    = R2_PUBLIC_URL +:+ "/" +:+ R2_BUCKET.THUMBNAILS +:+ "/" +:+ u
  /\ processPdfUrl (Some u)
    = Some (R2_PUBLIC_URL +:+ "/" +:+ R2_BUCKET.PDFS +:+ "/" +:+ u).
Proof.
  intros Hne Hs.
  unfold processAudioUrl, processImageUrl, processThumbnailUrl, processPdfUrl.
  rewrite (nonempty_truthy u Hne), Hs. simpl.
  by rewrite getAudioUrl_eq, getImageUrl_eq, getThumbnailUrl_eq, getPdfUrl_eq.
Qed.

Lemma resolve_bare_reference_witness :
  processAudioUrl (Some "a.mp3")
  = Some "https://pub-c6afb0e9c6e14b0f9d9f4aec83b93b1b.r2.dev/tunetalez-audio/a.mp3".
Proof.
  apply (resolve_bare_reference "a.mp3"); [discriminate | reflexivity].
Defined.

(** C9: for an absent ([undefined]) or empty reference the audio and the
    document resolver return [undefined], and the image and the
    thumbnail resolver return the placeholder URL of their category. *)
Theorem resolve_absent_reference (r : jsstr) :
  r = None \/ r = Some "" ->
  processAudioUrl r = None
  /\ processPdfUrl r = None
  /\ processImageUrl r
     = "https://via.placeholder.com/400x300/333333/FFFFFF?text=No+Image"
  /\ processThumbnailUrl r
     = "https://via.placeholder.com/150x200/333333/FFFFFF?text=No+Cover".
Proof. intros [-> | ->]; repeat split. Qed.

Lemma resolve_absent_reference_witness :
  processAudioUrl (Some "") = None
  /\ processPdfUrl (Some "") = None
  /\ processImageUrl (Some "")
     = "https://via.placeholder.com/400x300/333333/FFFFFF?text=No+Image"
  /\ processThumbnailUrl (Some "")
     = "https://via.placeholder.com/150x200/333333/FFFFFF?text=No+Cover".
Proof. apply (resolve_absent_reference (Some "")). right. reflexivity. Defined.

(** C10: [processBookUrls] returns a record in which every field other
    than [thumbnailUrl] and [audioUrl] is exactly the field of the
    input (present with the same value, or absent as in the input);
    only those two are rewritten. *)
Theorem processBookUrls_frame (book : gmap string jsval) (k : string) :
  k <> "thumbnailUrl" ->
  k <> "audioUrl" ->
  processBookUrls book !! k = book !! k.
Proof.
  intros Ht Ha. unfold processBookUrls.
  rewrite lookup_insert_ne by congruence.
  by rewrite lookup_insert_ne by congruence.
Qed.

Lemma processBookUrls_frame_witness :
  processBookUrls sample_book !! "title" = sample_book !! "title".
Proof. apply processBookUrls_frame; discriminate. Defined.

End ResolverProperties.

(** ** Properties of the player *)
Module PlayerProperties.
Import AudioPlayer PlayerRuns.

#[local] Arguments perform : simpl never.
#[local] Arguments status_of : simpl never.
#[local] Arguments pollingEffect : simpl never.
#[local] Arguments next_interval : simpl never.
#[local] Arguments loaded : simpl never.
#[local] Arguments step : simpl never.
#[local] Arguments handle_event : simpl never.
#[local] Arguments run : simpl never.
#[local] Arguments report : simpl never.
#[local] Arguments setState : simpl never.

(** *** Lists of tasks and the engine table *)

Lemma lookup_last_task (ts : list task) (t : task) :
  (ts ++ [t])%list !! length ts = Some t.
Proof. by rewrite list_lookup_middle. Qed.

Lemma delete_last_task (ts : list task) (t : task) :
  delete (length ts) (ts ++ [t])%list = ts.
Proof. rewrite delete_middle. apply app_nil_r. Qed.

Lemma perform_loaded d op h (e : engine) :
  loaded e h = true ->
  exists s, e !! h = Some s /\ isLoaded s = true
            /\ perform (Fulfilled d) op h e = Some (<[h := apply_op op s]> e).
Proof.
  unfold loaded, perform. destruct (e !! h) as [s|] eqn:E; [|done].
  intros Hl. exists s. by rewrite Hl.
Qed.

Lemma perform_insert d op h s (e : engine) :
  h < length e -> isLoaded s = true ->
  perform (Fulfilled d) op h (<[h := s]> e) = Some (<[h := apply_op op s]> e).
Proof.
  intros Hlt Hl. unfold perform.
  rewrite list_lookup_insert_eq by done. rewrite Hl.
  by rewrite list_insert_insert_eq.
Qed.

Lemma apply_op_loaded op s : isLoaded (apply_op op s) = true.
Proof. by destruct op. Qed.

Lemma status_of_insert h s (e : engine) :
  h < length e -> isLoaded s = true ->
  status_of (<[h := s]> e) h
  = StLoaded (positionMillis s) (durationMillis s) (playing s).
Proof.
  intros Hlt Hl. unfold status_of.
  rewrite list_lookup_insert_eq by done. by rewrite Hl.
Qed.

Lemma status_of_fresh (e : engine) url dur :
  status_of (e ++ [fresh_sound url dur])%list (length e) = StLoaded 0 dur false.
Proof. unfold status_of. by rewrite list_lookup_middle. Qed.

Lemma loaded_insert h h' s (e : engine) :
  e !! h = Some s -> forall s', isLoaded s' = isLoaded s ->
  loaded (<[h := s']> e) h' = loaded e h'.
Proof.
  intros E s' Hs. unfold loaded.
  destruct (decide (h = h')) as [<-|Hne].
  - rewrite list_lookup_insert_eq by (by eapply lookup_lt_Some). by rewrite E.
  - by rewrite list_lookup_insert_ne.
Qed.

(** *** One step of the player *)

Lemma step_settle i o t w :
  tasks w !! i = Some t ->
  step (EvSettle i o) w
  = pollingEffect (st w) (settle t o (set_tasks (delete i (tasks w)) w)).
Proof. intros H. unfold step, handle_event. by rewrite H. Qed.

(** The polling effect touches nothing but the interval. *)
Lemma pollingEffect_next prev w :
  pollingEffect prev w = set_interval (next_interval prev w) w.
Proof.
  unfold next_interval, pollingEffect. case_match; [done|]. by destruct w.
Qed.

Lemma pollingEffect_same w : pollingEffect (st w) w = w.
Proof.
  unfold pollingEffect. rewrite bool_decide_eq_true_2 by done.
  by rewrite andb_false_r.
Qed.

(** Normalising one world expression and leaving alone what surrounds
    it. *)
Ltac wcbv_in X :=
  cbv beta iota zeta delta
    [setSound setIsPlaying setIsLoading setPosition setDuration setError
     setState with_st set_eng set_tasks set_interval set_cleanupSound
     set_props set_mounted unhandled_rejection await report
     onPlaybackStatusUpdate loadSound loadSound_catch togglePlayPause
     togglePlayPause_catch stopAudio restartAudio soundCleanup
     intervalCallback settle
     audioUrl st mounted cleanupSound interval eng tasks calls unhandled
     sound isPlaying isLoading position duration error] in X.

Ltac wnorm_term t :=
  let X := fresh "X" in
  set (X := t); wcbv_in X; subst X.

Ltac wnorm :=
  match goal with
  | |- context [pollingEffect ?p ?w] => wnorm_term p; wnorm_term w
  end.

Ltac poll :=
  match goal with
  | |- context [pollingEffect ?p ?w] =>
      rewrite (pollingEffect_next p w);
      wnorm_term (set_interval (next_interval p w) w)
  end.

Ltac settle_last :=
  erewrite step_settle by (simpl; apply lookup_last_task);
  simpl tasks; rewrite ?delete_last_task; wnorm.

(** [world_is w E tac]: compute the local definition [w] with [tac] and
    keep the result as the equation [E]. *)
Ltac world_is w E tac :=
  eassert (E : w = _) by (subst w; tac; reflexivity).

(** *** Play *)

(** C4: with a sound held and loaded, calling play (togglePlayPause
    while the play flag is off) when position >= duration and
    duration > 0 first calls setPositionAsync(0) and, once that has
    settled, playAsync; when both have settled the snapshot reads
    position 0 and isPlaying true.  When position < duration, or the
    duration is unknown (0), it calls playAsync only, and the position
    is the one the engine had. *)
Theorem play_at_end_seeks_to_start_first (w : world) (h : handle)
    (d1 d2 : option Z) :
  mounted w = true ->
  sound (st w) = Some h ->
  loaded (eng w) h = true ->
  isPlaying (st w) = false ->
  let n := length (tasks w) in
  let w1 := togglePlayPause w in
  ((duration (st w) <= position (st w) /\ 0 < duration (st w))%Z ->
     let w2 := step (EvSettle n (Fulfilled d1)) w1 in
     let w3 := step (EvSettle n (Fulfilled d2)) w2 in
     calls w1 = (calls w ++ [CSetPosition h 0])%list
     /\ calls w2 = (calls w ++ [CSetPosition h 0; CPlay h])%list
     /\ calls w3 = calls w2
     /\ tasks w3 = tasks w
     /\ position (st w3) = 0%Z
     /\ isPlaying (st w3) = true
     /\ exists dur, status_of (eng w3) h = StLoaded 0 dur true)
  /\ (~ (duration (st w) <= position (st w) /\ 0 < duration (st w))%Z ->
     let w2 := step (EvSettle n (Fulfilled d1)) w1 in
     calls w1 = (calls w ++ [CPlay h])%list
     /\ calls w2 = calls w1
     /\ tasks w2 = tasks w
     /\ isPlaying (st w2) = true
     /\ exists pos dur pl,
         status_of (eng w) h = StLoaded pos dur pl
         /\ status_of (eng w2) h = StLoaded pos dur true
         /\ position (st w2) = pos).
Proof.
  intros Hm Hs Hl Hp n w1.
  destruct w as [url [snd pl ld pos dur err] m cs iv e ts cl un].
  simpl in Hm, Hs, Hl, Hp. subst m snd pl.
  destruct (perform_loaded d1 (OpSetPosition 0) h e Hl) as (s & E & Hls & Hseek).
  destruct (perform_loaded d1 OpPlay h e Hl) as (s' & E' & _ & Hplay).
  assert (s' = s) as -> by congruence.
  assert (Hlt : h < length e) by (by eapply lookup_lt_Some).
  subst n. simpl tasks in *. simpl calls. simpl st. simpl eng.
  simpl position. simpl duration.
  split.
  - intros [H1 H2] w2 w3.
    world_is w1 E1 ltac:(
      wnorm_term (togglePlayPause
        (World url (Comp (Some h) false ld pos dur err) true cs iv e ts cl un));
      rewrite (proj2 (Z.leb_le _ _) H1), (proj2 (Z.ltb_lt _ _) H2); simpl).
    clearbody w1. subst w1.
    world_is w2 E2 ltac:(
      settle_last; rewrite Hseek; wnorm;
      rewrite status_of_insert by done; wnorm; poll).
    clearbody w2. subst w2.
    world_is w3 E3 ltac:(
      settle_last; rewrite perform_insert by done; wnorm;
      rewrite status_of_insert by (done || apply apply_op_loaded); wnorm;
      poll).
    clearbody w3. subst w3. simpl.
    rewrite <- app_assoc. repeat split; try done.
    rewrite status_of_insert by done. simpl. eauto.
  - intros Hn w2.
    world_is w1 E1 ltac:(
      wnorm_term (togglePlayPause
        (World url (Comp (Some h) false ld pos dur err) true cs iv e ts cl un));
      replace ((dur <=? pos)%Z && (0 <? dur)%Z) with false
        by (symmetry; apply andb_false_iff; rewrite Z.leb_gt, Z.ltb_ge; lia);
      simpl).
    clearbody w1. subst w1.
    world_is w2 E2 ltac:(
      settle_last; rewrite Hplay; wnorm;
      rewrite status_of_insert by done; wnorm; poll).
    clearbody w2. subst w2. simpl.
    repeat split; try done.
    exists (positionMillis s), (durationMillis s), (playing s).
    rewrite status_of_insert by done. simpl.
    unfold status_of. rewrite E. by rewrite Hls.
Qed.

Lemma play_at_end_seeks_to_start_first_witness :
  let w := run [EvSettle 0 (Fulfilled (Some 10000%Z)); EvPress BtnPlayPause;
                EvSettle 0 (Fulfilled None); EvElapse 0 12000]
               (mount "a.mp3") in
  let w3 := run [EvSettle 0 (Fulfilled None); EvSettle 0 (Fulfilled None)]
                (togglePlayPause w) in
  position (st w) = 10000%Z
  /\ duration (st w) = 10000%Z
  /\ isPlaying (st w) = false
  /\ calls w3 = (calls w ++ [CSetPosition 0 0; CPlay 0])%list
  /\ position (st w3) = 0%Z
  /\ isPlaying (st w3) = true.
Proof.
  intros w w3.
  pose proof (play_at_end_seeks_to_start_first w 0 None None
                eq_refl eq_refl eq_refl eq_refl) as H.
  cbv zeta in H. destruct H as [H _].
  destruct H as (_ & Hc2 & Hc3 & _ & Hpos & Hpl & _).
  { split; vm_compute; [discriminate | reflexivity]. }
  do 3 (split; [reflexivity|]).
  split; [etransitivity; [exact Hc3 | exact Hc2]|].
  split; [exact Hpos | exact Hpl].
Defined.

(** *** Stop *)

(** C5: with a sound held and loaded, once stop (stopAudio: stopAsync,
    then setPositionAsync(0)) has completed, the position snapshot
    reads 0, playback is halted, the stored sound is the same and still
    loaded, no sound was released, and with the controls shown the
    state is Ready, not Idle. *)
Theorem stop_resets_position_and_keeps_sound (w : world) (h : handle)
    (d1 d2 : option Z) :
  mounted w = true ->
  sound (st w) = Some h ->
  loaded (eng w) h = true ->
  let n := length (tasks w) in
  let w1 := stopAudio w in
  let w2 := step (EvSettle n (Fulfilled d1)) w1 in
  let w3 := step (EvSettle n (Fulfilled d2)) w2 in
  calls w3 = (calls w ++ [CStop h; CSetPosition h 0])%list
  /\ tasks w3 = tasks w
  /\ position (st w3) = 0%Z
  /\ isPlaying (st w3) = false
  /\ sound (st w3) = Some h
  /\ (forall h', loaded (eng w3) h' = loaded (eng w) h')
  /\ (exists dur, status_of (eng w3) h = StLoaded 0 dur false)
  /\ ((exists b, render (st w) = ControlsView b) ->
      playbackState (st w3) = Ready).
Proof.
  intros Hm Hs Hl n w1 w2 w3.
  destruct w as [url [snd pl ld pos dur err] m cs iv e ts cl un].
  simpl in Hm, Hs, Hl. subst m snd.
  destruct (perform_loaded d1 OpStop h e Hl) as (s & E & Hls & Hstop).
  assert (Hlt : h < length e) by (by eapply lookup_lt_Some).
  subst n. simpl tasks in *. simpl calls. simpl st. simpl eng.
  world_is w1 E1 ltac:(
    wnorm_term (stopAudio
      (World url (Comp (Some h) pl ld pos dur err) true cs iv e ts cl un))).
  clearbody w1. subst w1.
  world_is w2 E2 ltac:(
    settle_last; rewrite Hstop; wnorm;
    rewrite status_of_insert by done; wnorm; poll).
  clearbody w2. subst w2.
  world_is w3 E3 ltac:(
    settle_last; rewrite perform_insert by done; wnorm;
    rewrite status_of_insert by done; wnorm; poll).
  clearbody w3. subst w3. simpl.
  rewrite <- app_assoc. repeat split; try done.
  - intros h'. by apply (loaded_insert h h' s e E).
  - rewrite status_of_insert by done. simpl. eauto.
  - intros [b Hb]. unfold playbackState, render in *. simpl in *.
    destruct (truthy err); [done|]. by destruct ld.
Qed.

Lemma stop_resets_position_and_keeps_sound_witness :
  let w := run [EvSettle 0 (Fulfilled (Some 10000%Z)); EvPress BtnPlayPause;
                EvSettle 0 (Fulfilled None); EvElapse 0 3000]
               (mount "a.mp3") in
  let w3 := run [EvSettle 0 (Fulfilled None); EvSettle 0 (Fulfilled None)]
                (stopAudio w) in
  playbackState (st w) = Playing
  /\ position (st w) = 3000%Z
  /\ position (st w3) = 0%Z
  /\ isPlaying (st w3) = false
  /\ loaded (eng w3) 0 = true
  /\ playbackState (st w3) = Ready.
Proof.
  intros w w3.
  pose proof (stop_resets_position_and_keeps_sound w 0 None None
                eq_refl eq_refl eq_refl) as H.
  cbv zeta in H. destruct H as (_ & _ & Hpos & Hpl & _ & Hld & _ & Hst).
  do 2 (split; [reflexivity|]).
  split; [exact Hpos|]. split; [exact Hpl|].
  split; [exact (eq_trans (Hld 0) eq_refl)|].
  apply Hst. by exists true.
Defined.

(** *** Loads that overlap *)




(** *** A load that fails *)

(** C6: a load whose createAsync rejects leaves the state
    Error("Failed to load audio") with loading off; the rejection is
    caught in loadSound (none goes unhandled) and the engine and the
    calls made are as they were.  A press of play after it is a no-op:
    the world is the same, so no state changes and no call is made.
    The state is that of the mounted component; once it is unmounted
    there is no state to show, and the rejection is caught and the
    press ignored all the same. *)
Theorem failed_load_reports_error (w : world) (i : nat) (url : string) :
  tasks w !! i = Some (LoadCreating url) ->
  let w' := step (EvSettle i Rejected) w in
  (mounted w = true ->
   playbackState (st w') = Error "Failed to load audio"
   /\ isLoading (st w') = false)
  /\ unhandled w' = unhandled w
  /\ eng w' = eng w
  /\ calls w' = calls w
  /\ sound (st w') = sound (st w)
  /\ step (EvPress BtnPlayPause) w' = w'.
Proof.
  intros Ht w'.
  destruct w as [u [snd pl ld pos dur0 err] m cs iv e ts cl un].
  simpl in Ht. simpl eng. simpl st. simpl unhandled. simpl calls.
  simpl mounted. destruct m.
  - world_is w' E1 ltac:(
      erewrite step_settle by (simpl; exact Ht); wnorm; poll).
    clearbody w'. subst w'.
    repeat split; try done;
      try (unfold step, handle_event; simpl; apply pollingEffect_same).
  - world_is w' E1 ltac:(
      erewrite step_settle by (simpl; exact Ht); wnorm; poll).
    clearbody w'. subst w'.
    repeat split; try done;
      try (unfold step, handle_event; simpl; apply pollingEffect_same).
Qed.

Lemma failed_load_reports_error_witness :
  let w' := step (EvSettle 0 Rejected) (mount "bad-url") in
  playbackState (st w') = Error "Failed to load audio"
  /\ unhandled w' = 0
  /\ step (EvPress BtnPlayPause) w' = w'.
Proof.
  destruct (failed_load_reports_error (mount "bad-url") 0 "bad-url" eq_refl)
    as (Hs & Hu & _ & _ & _ & Hno).
  split; [exact (proj1 (Hs eq_refl))|]. split; [exact Hu | exact Hno].
Defined.

(** *** What the handlers leave alone *)

Lemma keeps_refl w : keeps w w.
Proof. done. Qed.

Lemma keeps_trans w1 w2 w3 : keeps w1 w2 -> keeps w2 w3 -> keeps w1 w3.
Proof.
  intros (A1 & A2 & A3) (B1 & B2 & B3).
  split; [congruence|]. split; [congruence | auto].
Qed.

Lemma keeps_setState f w0 w :
  (forall c, sound (f c) = None -> sound c = None) ->
  keeps w0 w -> keeps w0 (setState f w).
Proof.
  intros Hf H. eapply keeps_trans; [exact H|].
  destruct w as [u c [] cs iv e ts cl un]; [|done].
  repeat split. apply Hf.
Qed.

Lemma keeps_setSound h w0 w : keeps w0 w -> keeps w0 (setSound (Some h) w).
Proof. by apply keeps_setState. Qed.
Lemma keeps_setIsPlaying v w0 w : keeps w0 w -> keeps w0 (setIsPlaying v w).
Proof. by apply keeps_setState. Qed.
Lemma keeps_setIsLoading v w0 w : keeps w0 w -> keeps w0 (setIsLoading v w).
Proof. by apply keeps_setState. Qed.
Lemma keeps_setPosition v w0 w : keeps w0 w -> keeps w0 (setPosition v w).
Proof. by apply keeps_setState. Qed.
Lemma keeps_setDuration v w0 w : keeps w0 w -> keeps w0 (setDuration v w).
Proof. by apply keeps_setState. Qed.
Lemma keeps_setError v w0 w : keeps w0 w -> keeps w0 (setError v w).
Proof. by apply keeps_setState. Qed.

Lemma keeps_await c t w0 w : keeps w0 w -> keeps w0 (await c t w).
Proof. done. Qed.
Lemma keeps_set_eng e w0 w : keeps w0 w -> keeps w0 (set_eng e w).
Proof. done. Qed.
Lemma keeps_set_tasks ts w0 w : keeps w0 w -> keeps w0 (set_tasks ts w).
Proof. done. Qed.
Lemma keeps_set_cleanupSound s w0 w : keeps w0 w -> keeps w0 (set_cleanupSound s w).
Proof. done. Qed.
Lemma keeps_set_props u w0 w : keeps w0 w -> keeps w0 (set_props u w).
Proof. done. Qed.
Lemma keeps_unhandled_rejection w0 w : keeps w0 w -> keeps w0 (unhandled_rejection w).
Proof. done. Qed.

Create HintDb keeps.
#[local] Hint Resolve keeps_refl keeps_setSound keeps_setIsPlaying
  keeps_setIsLoading keeps_setPosition keeps_setDuration keeps_setError
  keeps_await keeps_set_eng keeps_set_tasks keeps_set_cleanupSound
  keeps_set_props keeps_unhandled_rejection : keeps.

Lemma keeps_onPlaybackStatusUpdate status w0 w :
  keeps w0 w -> keeps w0 (onPlaybackStatusUpdate status w).
Proof. intros H. unfold onPlaybackStatusUpdate. repeat case_match; auto with keeps. Qed.

Lemma keeps_report h w0 w : keeps w0 w -> keeps w0 (report h w).
Proof. apply keeps_onPlaybackStatusUpdate. Qed.

#[local] Hint Resolve keeps_onPlaybackStatusUpdate keeps_report : keeps.

Lemma keeps_loadSound w0 w : keeps w0 w -> keeps w0 (loadSound w).
Proof. intros H. unfold loadSound. case_match; auto with keeps. Qed.

Lemma keeps_loadSound_catch w0 w : keeps w0 w -> keeps w0 (loadSound_catch w).
Proof. intros H. unfold loadSound_catch. auto with keeps. Qed.

Lemma keeps_togglePlayPause w0 w : keeps w0 w -> keeps w0 (togglePlayPause w).
Proof. intros H. unfold togglePlayPause. repeat case_match; auto with keeps. Qed.

Lemma keeps_togglePlayPause_catch w0 w :
  keeps w0 w -> keeps w0 (togglePlayPause_catch w).
Proof. intros H. unfold togglePlayPause_catch. auto with keeps. Qed.

Lemma keeps_stopAudio w0 w : keeps w0 w -> keeps w0 (stopAudio w).
Proof. intros H. unfold stopAudio. case_match; auto with keeps. Qed.

Lemma keeps_restartAudio w0 w : keeps w0 w -> keeps w0 (restartAudio w).
Proof. intros H. unfold restartAudio. case_match; auto with keeps. Qed.

Lemma keeps_soundCleanup w0 w : keeps w0 w -> keeps w0 (soundCleanup w).
Proof. intros H. unfold soundCleanup. case_match; auto with keeps. Qed.

Lemma keeps_intervalCallback s w0 w : keeps w0 w -> keeps w0 (intervalCallback s w).
Proof. intros H. unfold intervalCallback. case_match; auto with keeps. Qed.

#[local] Hint Resolve keeps_loadSound keeps_loadSound_catch
  keeps_togglePlayPause keeps_togglePlayPause_catch keeps_stopAudio
  keeps_restartAudio keeps_soundCleanup keeps_intervalCallback : keeps.

Lemma keeps_settle t o w0 w : keeps w0 w -> keeps w0 (settle t o w).
Proof.
  intros H. destruct t; simpl; repeat case_match; auto 10 with keeps.
Qed.

Lemma keeps_press b w0 w : keeps w0 w -> keeps w0 (press b w).
Proof. intros H. unfold press. repeat case_match; auto with keeps. Qed.

#[local] Hint Resolve keeps_settle keeps_press : keeps.

Lemma keeps_handle_event ev w : ev <> EvUnmount -> keeps w (handle_event ev w).
Proof.
  intros Hev. destruct ev; try done; unfold handle_event;
    repeat case_match; auto 10 with keeps.
Qed.

(** *** The polling interval *)

Lemma pollingEffect_st prev w : st (pollingEffect prev w) = st w.
Proof. by rewrite pollingEffect_next. Qed.

Lemma pollingEffect_eng prev w : eng (pollingEffect prev w) = eng w.
Proof. by rewrite pollingEffect_next. Qed.

Lemma pollingEffect_tasks prev w : tasks (pollingEffect prev w) = tasks w.
Proof. by rewrite pollingEffect_next. Qed.

Lemma pollingEffect_mounted prev w : mounted (pollingEffect prev w) = mounted w.
Proof. by rewrite pollingEffect_next. Qed.

Lemma unmount_or_not ev : ev = EvUnmount \/ ev <> EvUnmount.
Proof. destruct ev; (by left) || (by right). Qed.

Lemma step_poll_inv ev w : poll_inv w -> poll_inv (step ev w).
Proof.
  unfold poll_inv, step. intros Hw.
  destruct (unmount_or_not ev) as [->|Hev].
  - unfold handle_event. destruct (mounted w) eqn:Hm.
    + unfold pollingEffect. by destruct (soundCleanup w).
    + rewrite pollingEffect_same. by rewrite Hw, Hm.
  - destruct (keeps_handle_event ev w Hev) as (Hi & Hmt & _).
    unfold pollingEffect. rewrite Hmt.
    destruct (mounted w) eqn:Hm; simpl in *.
    + case_bool_decide as Hd; simpl.
      * rewrite Hmt, Hi, Hw. simpl. injection Hd as Hd1 Hd2. by rewrite Hd1, Hd2.
      * by rewrite Hmt.
    + by rewrite Hmt, Hi, Hw.
Qed.

Lemma silent_status (w : world) h pos dur pl :
  silent w -> status_of (eng w) h = StLoaded pos dur pl -> pl = false.
Proof.
  intros (_ & He & _). unfold status_of.
  destruct (eng w !! h) as [s|] eqn:E; [|done].
  destruct (isLoaded s); [|done]. intros [= _ _ <-].
  by eapply (proj1 (Forall_lookup _ _) He).
Qed.

Lemma silent_frame w w' :
  silent w ->
  isPlaying (st w') = isPlaying (st w) -> eng w' = eng w -> tasks w' = tasks w ->
  silent w'.
Proof. intros (H1 & H2 & H3) E1 E2 E3. unfold silent. by rewrite E1, E2, E3. Qed.

Lemma silent_setter f w :
  silent w -> (forall c, isPlaying (f c) = isPlaying c) -> silent (setState f w).
Proof.
  intros Hw Hf. eapply silent_frame; [exact Hw|..];
    destruct w as [u c [] cs iv e ts cl un]; simpl; auto.
Qed.

Lemma silent_setIsPlaying_false w : silent w -> silent (setIsPlaying false w).
Proof.
  intros (H1 & H2 & H3).
  destruct w as [u c [] cs iv e ts cl un]; by repeat split.
Qed.

Lemma silent_report h w : silent w -> silent (report h w).
Proof.
  intros Hs. unfold report, onPlaybackStatusUpdate.
  destruct (status_of (eng w) h) as [pos dur pl|err] eqn:E.
  - rewrite (silent_status w h pos dur pl Hs E).
    apply silent_setIsPlaying_false.
    unfold setDuration, setPosition. by do 2 (apply silent_setter; [|done]).
  - case_match; [|done]. by apply silent_setter.
Qed.

Lemma silent_unload h w : silent w -> silent (set_eng (unload h (eng w)) w).
Proof.
  intros (H1 & H2 & H3). repeat split; try done. simpl.
  unfold unload. by apply Forall_alter.
Qed.

Lemma silent_await c t w : silent w -> quiet t -> silent (await c t w).
Proof.
  intros (H1 & H2 & H3) Ht. repeat split; try done. simpl.
  apply Forall_app. auto.
Qed.

Lemma silent_loadSound w : sound (st w) = None -> silent w -> silent (loadSound w).
Proof.
  intros Hs Hw. unfold loadSound. rewrite Hs.
  apply silent_await; [|done].
  unfold setError, setIsLoading. by do 2 (apply silent_setter; [|done]).
Qed.

Lemma silent_set_tasks_delete i w :
  silent w -> silent (set_tasks (delete i (tasks w)) w).
Proof.
  intros (H1 & H2 & H3). repeat split; try done. simpl.
  by apply Forall_delete.
Qed.

Lemma silent_settle t o w :
  quiet t -> silent w -> silent (settle t o w).
Proof.
  intros Ht Hw. destruct t; try done; simpl; destruct o as [dur|].
  - apply silent_await; [|done]. by apply silent_report, silent_unload.
  - unfold loadSound_catch, setError, setIsLoading.
    by do 2 (apply silent_setter; [|done]).
  - unfold setSound, setIsLoading.
    do 2 (apply silent_setter; [|done]).
    apply silent_report.
    destruct Hw as (H1 & H2 & H3). repeat split; try done. simpl.
    apply Forall_app. split; [done|]. by repeat constructor.
  - unfold loadSound_catch, setError, setIsLoading.
    by do 2 (apply silent_setter; [|done]).
  - destruct (status_of (eng w) h) eqn:E.
    + unfold setPosition, setDuration.
      do 2 (apply silent_setter; [|done]). by apply silent_report.
    + by apply silent_report.
  - eapply silent_frame; [exact Hw|..]; done.
  - by apply silent_report, silent_unload.
  - eapply silent_frame; [exact Hw|..]; done.
Qed.

Lemma silent_soundCleanup w : silent w -> silent (soundCleanup w).
Proof.
  intros Hw. unfold soundCleanup. case_match; [|done].
  by apply silent_await.
Qed.

Lemma soundCleanup_sound w : sound (st (soundCleanup w)) = sound (st w).
Proof. unfold soundCleanup. by case_match. Qed.

Lemma elapse_silent dt s : playing s = false -> playing (elapse dt s) = false.
Proof.
  intros H. unfold elapse. rewrite H. by rewrite andb_false_r.
Qed.

Lemma silent_handle_event ev w :
  sound (st w) = None -> silent w -> silent (handle_event ev w).
Proof.
  intros Hs Hw. destruct ev as [url| |b|i o| |h dt|h msg]; unfold handle_event.
  - case_match; [|done].
    eapply silent_frame; [apply silent_loadSound| | |]; try reflexivity.
    + by rewrite soundCleanup_sound.
    + apply silent_soundCleanup.
      eapply silent_frame; [exact Hw|..]; done.
  - case_match; [|done].
    eapply silent_frame; [apply silent_soundCleanup, Hw|..]; done.
  - case_match; [|done]. unfold press, restartAudio, togglePlayPause, stopAudio.
    rewrite Hs. repeat case_match; try done; by apply silent_loadSound.
  - destruct (tasks w !! i) as [t|] eqn:E; [|done].
    apply silent_settle; [|by apply silent_set_tasks_delete].
    destruct Hw as (_ & _ & H3).
    by eapply (proj1 (Forall_lookup _ _) H3).
  - unfold intervalCallback. repeat case_match; try done. by apply silent_await.
  - case_match; [|done]. apply silent_report.
    destruct Hw as (H1 & H2 & H3). repeat split; try done. simpl.
    apply Forall_alter; [done|]. intros s _. apply elapse_silent.
  - case_match; [|done]. unfold onPlaybackStatusUpdate.
    case_match; [|by apply silent_unload].
    apply silent_setter; [|done]. by apply silent_unload.
Qed.

Lemma step_idle_inv ev w : idle_inv w -> idle_inv (step ev w).
Proof.
  unfold idle_inv, step. intros Hw Hs.
  rewrite pollingEffect_st in Hs.
  assert (Hs0 : sound (st w) = None).
  { destruct (unmount_or_not ev) as [->|Hev].
    - revert Hs. unfold handle_event. case_match; [|done].
      simpl. by rewrite soundCleanup_sound.
    - by apply (keeps_handle_event ev w Hev). }
  eapply silent_frame; [apply (silent_handle_event ev w Hs0 (Hw Hs0))|..].
  - by rewrite pollingEffect_st.
  - by rewrite pollingEffect_eng.
  - by rewrite pollingEffect_tasks.
Qed.

Lemma mount_poll_inv url : poll_inv (mount url).
Proof. reflexivity. Qed.

Lemma mount_idle_inv url : idle_inv (mount url).
Proof. intros _. repeat split; simpl; by repeat constructor. Qed.

Lemma run_cons ev evs w : run (ev :: evs) w = run evs (step ev w).
Proof. reflexivity. Qed.

Lemma run_invariants evs : forall w,
  poll_inv w -> idle_inv w ->
  poll_inv (run evs w) /\ idle_inv (run evs w).
Proof.
  induction evs as [|ev evs IH]; intros w Hp Hi; [done|].
  rewrite run_cons. apply IH; [by apply step_poll_inv | by apply step_idle_inv].
Qed.

Lemma reachable_invariants w : reachable w -> poll_inv w /\ idle_inv w.
Proof.
  intros (url & evs & ->).
  apply run_invariants; [apply mount_poll_inv | apply mount_idle_inv].
Qed.

(** C3, as stated, fails: a sound plays, then another URL is selected
    and its load fails.  The play flag is still set, so the interval is
    running while the state is Error. *)
Lemma polling_active_while_error_shown :
  let ok := Fulfilled (Some 10000%Z) in
  let w := run [EvSettle 0 ok; EvPress BtnPlayPause; EvSettle 0 ok;
                EvSetUrl "bad-url"; EvSettle 0 ok; EvSettle 0 Rejected]
               (mount "a.mp3") in
  reachable w
  /\ playbackState (st w) = Error "Failed to load audio"
  /\ polling w = true.
Proof.
  cbv zeta. split; [|split; vm_compute; reflexivity].
  by eexists "a.mp3", [_; _; _; _; _; _].
Qed.

(** C3, amended: in every reachable state the interval is running if
    and only if the component is mounted and its play flag is set.  It
    is therefore never running while the state is Idle, Ready or
    Paused, it is running while a mounted player is Playing, and it is
    stopped by unmounting. *)
Theorem polling_follows_play_flag (w : world) :
  reachable w ->
  polling w = mounted w && isPlaying (st w)
  /\ (playbackState (st w) = Idle \/ playbackState (st w) = Ready
      \/ playbackState (st w) = Paused -> polling w = false)
  /\ (mounted w = true -> playbackState (st w) = Playing -> polling w = true)
  /\ (mounted w = false -> polling w = false).
Proof.
  intros Hr. destruct (reachable_invariants w Hr) as [Hp Hi].
  assert (Hpoll : polling w = mounted w && isPlaying (st w)).
  { unfold polling. rewrite Hp. by destruct (mounted w && isPlaying (st w)). }
  rewrite Hpoll. split; [done|]. split; [|split].
  - unfold idle_inv in Hi. unfold playbackState.
    destruct (render (st w)); [by intros [|[|]].. |].
    destruct (sound (st w)) as [h|] eqn:Hs.
    + destruct (isPlaying (st w)); [by intros [|[|]] | by rewrite andb_false_r].
    + destruct (Hi eq_refl) as (-> & _). by rewrite andb_false_r.
  - intros -> Hs. unfold playbackState in Hs.
    repeat case_match; try done.
  - by intros ->.
Qed.

Lemma polling_follows_play_flag_witness :
  let w := run [EvSettle 0 (Fulfilled None); EvPress BtnPlayPause;
                EvSettle 0 (Fulfilled None)] (mount "a.mp3") in
  playbackState (st w) = Playing /\ polling w = true
  /\ polling (step EvUnmount w) = false.
Proof.
  intros w. split; [vm_compute; reflexivity|]. split.
  - apply (polling_follows_play_flag w);
      [by exists "a.mp3", [EvSettle 0 (Fulfilled None); EvPress BtnPlayPause;
                           EvSettle 0 (Fulfilled None)]
      | vm_compute; reflexivity..].
  - apply (polling_follows_play_flag (step EvUnmount w));
      [|vm_compute; reflexivity].
    exists "a.mp3",
      [EvSettle 0 (Fulfilled None); EvPress BtnPlayPause;
       EvSettle 0 (Fulfilled None); EvUnmount].
    vm_compute. reflexivity.
Defined.

(** *** Resources *)

Lemma loaded_unload h h' (e : engine) :
  loaded (unload h e) h' = true -> loaded e h' = true /\ h' <> h.
Proof.
  unfold loaded, unload. intros H.
  destruct (decide (h' = h)) as [->|Hne].
  - rewrite list_lookup_alter_eq in H. by destruct (e !! h).
  - by rewrite list_lookup_alter_ne in H.
Qed.

Lemma status_of_unload h (e : engine) :
  status_of (unload h e) h = StUnloaded None.
Proof.
  unfold status_of, unload. rewrite list_lookup_alter_eq.
  by destruct (e !! h).
Qed.

Lemma loaded_unload_same h (e : engine) : loaded (unload h e) h = false.
Proof.
  destruct (loaded (unload h e) h) eqn:E; [|done].
  by destruct (loaded_unload h h e E).
Qed.

Lemma loaded_perform o op h h' (e e' : engine) :
  perform o op h e = Some e' -> loaded e' h' = loaded e h'.
Proof.
  unfold perform. destruct o; [|done].
  destruct (e !! h) as [s|] eqn:E; [|done].
  destruct (isLoaded s) eqn:Hl; [|done]. intros [= <-].
  apply (loaded_insert h h' s e E). by rewrite apply_op_loaded.
Qed.

Lemma elapse_loaded dt s : isLoaded (elapse dt s) = isLoaded s.
Proof.
  unfold elapse. destruct (isLoaded s) eqn:Hl; [|done].
  destruct (playing s); simpl; [|done]. by repeat case_match.
Qed.

Lemma loaded_elapse dt h h' (e : engine) :
  loaded (alter (elapse dt) h e) h' = loaded e h'.
Proof.
  unfold loaded. destruct (decide (h' = h)) as [->|Hne].
  - rewrite list_lookup_alter_eq. destruct (e !! h); [|done].
    apply elapse_loaded.
  - by rewrite list_lookup_alter_ne.
Qed.

Lemma loaded_fresh url dur h (e : engine) :
  loaded (e ++ [fresh_sound url dur])%list h = true ->
  loaded e h = true \/ h = length e.
Proof.
  unfold loaded. destruct (decide (h < length e)) as [Hlt|Hge].
  - rewrite lookup_app_l by done. auto.
  - destruct (decide (h = length e)) as [->|Hne]; [auto|].
    rewrite lookup_ge_None_2; [done|]. rewrite length_app. simpl. lia.
Qed.

Lemma held_none (e : engine) :
  (forall h, loaded e h = false) -> held e = 0.
Proof.
  unfold held. induction e as [|s e IH]; intros H; [done|].
  rewrite filter_cons. pose proof (H 0) as H0. unfold loaded in H0. simpl in H0.
  rewrite decide_False by (by rewrite H0).
  apply IH. intros h. apply (H (S h)).
Qed.

Lemma held_within (e : engine) o : loaded_within e o -> held e <= 1.
Proof.
  unfold held. revert o. induction e as [|s e IH]; intros o H; [simpl; lia|].
  rewrite filter_cons. destruct (isLoaded s) eqn:Hs.
  - rewrite decide_True by done. simpl.
    assert (Ho : o = Some 0) by (apply H; unfold loaded; simpl; done).
    fold (held e). rewrite held_none; [lia|].
    intros h. destruct (loaded e h) eqn:E; [|done].
    assert (o = Some (S h)) by (apply H; exact E). congruence.
  - rewrite decide_False by done.
    apply (IH (pred <$> o)). intros h Hh.
    rewrite (H (S h) Hh). done.
Qed.

(** *** Suspended loads *)

Lemma loads_app ts t :
  loads (ts ++ [t]) = (loads ts ++ if is_load t then [t] else [])%list.
Proof.
  unfold loads. rewrite filter_app. f_equal.
  rewrite filter_cons, filter_nil. by destruct (is_load t).
Qed.

Lemma loads_delete_other i t ts :
  ts !! i = Some t -> is_load t = false -> loads (delete i ts) = loads ts.
Proof.
  intros Hi Ht. rewrite <- (take_drop_middle ts i t Hi) at 2.
  rewrite delete_take_drop. unfold loads.
  rewrite !filter_app, filter_cons. by rewrite decide_False by (by rewrite Ht).
Qed.

Lemma loads_delete_only i t t' ts :
  ts !! i = Some t -> is_load t = true -> loads ts = [t'] ->
  t' = t /\ loads (delete i ts) = [].
Proof.
  intros Hi Ht. rewrite <- (take_drop_middle ts i t Hi) at 1.
  rewrite delete_take_drop. unfold loads.
  rewrite !filter_app, filter_cons. rewrite decide_True by done.
  intros H.
  destruct (filter _ (take i ts)) as [|x l] eqn:E1.
  - simpl in H. injection H as -> H. by rewrite H.
  - simpl in H. injection H as -> H. by destruct l.
Qed.

Lemma no_load_pending w : load_pending w = false -> loads (tasks w) = [].
Proof.
  unfold load_pending, loads. induction (tasks w) as [|t ts IH]; [done|].
  simpl. intros [Ht Hts]%orb_false_iff.
  rewrite filter_cons, decide_False by (by rewrite Ht). auto.
Qed.

(** *** Handlers that are calm *)

Lemma calm_refl w : calm w w.
Proof. done. Qed.

Lemma calm_setState f w0 w :
  (forall c, sound (f c) = sound c) -> calm w0 w -> calm w0 (setState f w).
Proof.
  intros Hf (H1 & H2 & H3 & H4).
  destruct w as [u c [] cs iv e ts cl un]; [|done].
  repeat split; try done. simpl. by rewrite Hf.
Qed.

Lemma calm_setIsPlaying v w0 w : calm w0 w -> calm w0 (setIsPlaying v w).
Proof. by apply calm_setState. Qed.
Lemma calm_setIsLoading v w0 w : calm w0 w -> calm w0 (setIsLoading v w).
Proof. by apply calm_setState. Qed.
Lemma calm_setPosition v w0 w : calm w0 w -> calm w0 (setPosition v w).
Proof. by apply calm_setState. Qed.
Lemma calm_setDuration v w0 w : calm w0 w -> calm w0 (setDuration v w).
Proof. by apply calm_setState. Qed.
Lemma calm_setError v w0 w : calm w0 w -> calm w0 (setError v w).
Proof. by apply calm_setState. Qed.

Lemma calm_await c t w0 w :
  is_load t = false -> calm w0 w -> calm w0 (await c t w).
Proof.
  intros Ht (H1 & H2 & H3 & H4). repeat split; try done. simpl.
  rewrite loads_app, Ht. by rewrite app_nil_r.
Qed.

Lemma calm_set_eng e w0 w :
  (forall h, loaded e h = true -> loaded (eng w) h = true) ->
  calm w0 w -> calm w0 (set_eng e w).
Proof. intros He (H1 & H2 & H3 & H4). repeat split; try done. simpl. auto. Qed.

Lemma calm_set_cleanupSound s w0 w : calm w0 w -> calm w0 (set_cleanupSound s w).
Proof. done. Qed.
Lemma calm_set_props u w0 w : calm w0 w -> calm w0 (set_props u w).
Proof. done. Qed.
Lemma calm_set_interval i w0 w : calm w0 w -> calm w0 (set_interval i w).
Proof. done. Qed.
Lemma calm_set_mounted_false w0 w : calm w0 w -> calm w0 (set_mounted false w).
Proof. intros (H1 & H2 & H3 & H4). by repeat split. Qed.
Lemma calm_unhandled_rejection w0 w : calm w0 w -> calm w0 (unhandled_rejection w).
Proof. done. Qed.

Lemma calm_unload h w0 w : calm w0 w -> calm w0 (set_eng (unload h (eng w)) w).
Proof. apply calm_set_eng. intros h' H. by apply loaded_unload in H as [H _]. Qed.

Lemma calm_perform o op h e w0 w :
  perform o op h (eng w) = Some e -> calm w0 w -> calm w0 (set_eng e w).
Proof.
  intros Hp. apply calm_set_eng. intros h'.
  by rewrite (loaded_perform o op h h' (eng w) e Hp).
Qed.

Create HintDb calm.
#[local] Hint Resolve calm_refl calm_setIsPlaying calm_setIsLoading
  calm_setPosition calm_setDuration calm_setError calm_set_cleanupSound
  calm_set_props calm_set_interval calm_set_mounted_false
  calm_unhandled_rejection calm_unload : calm.

Lemma calm_onPlaybackStatusUpdate status w0 w :
  calm w0 w -> calm w0 (onPlaybackStatusUpdate status w).
Proof. intros H. unfold onPlaybackStatusUpdate. repeat case_match; auto with calm. Qed.

Lemma calm_report h w0 w : calm w0 w -> calm w0 (report h w).
Proof. apply calm_onPlaybackStatusUpdate. Qed.

#[local] Hint Resolve calm_onPlaybackStatusUpdate calm_report : calm.

Lemma calm_togglePlayPause w0 w : calm w0 w -> calm w0 (togglePlayPause w).
Proof.
  intros H. unfold togglePlayPause.
  repeat case_match; auto using calm_await with calm.
Qed.

Lemma calm_stopAudio w0 w : calm w0 w -> calm w0 (stopAudio w).
Proof. intros H. unfold stopAudio. case_match; auto using calm_await with calm. Qed.

Lemma calm_restartAudio w0 w : calm w0 w -> calm w0 (restartAudio w).
Proof. intros H. unfold restartAudio. case_match; auto using calm_await with calm. Qed.

Lemma calm_soundCleanup w0 w : calm w0 w -> calm w0 (soundCleanup w).
Proof. intros H. unfold soundCleanup. case_match; auto using calm_await with calm. Qed.

Lemma calm_intervalCallback s w0 w : calm w0 w -> calm w0 (intervalCallback s w).
Proof. intros H. unfold intervalCallback. case_match; auto using calm_await with calm. Qed.

#[local] Hint Resolve calm_togglePlayPause calm_stopAudio calm_restartAudio
  calm_soundCleanup calm_intervalCallback : calm.

Lemma calm_settle t o w0 w :
  is_load t = false -> calm w0 w -> calm w0 (settle t o w).
Proof.
  intros Ht H. destruct t; try done; unfold settle, togglePlayPause_catch;
    repeat case_match;
    eauto 10 using calm_await, calm_perform with calm.
Qed.

Lemma calm_pollingEffect prev w0 w : calm w0 w -> calm w0 (pollingEffect prev w).
Proof. rewrite pollingEffect_next. auto with calm. Qed.

(** *** Serial runs hold at most one resource *)

Lemma calm_serial_inv w w' : calm w w' -> serial_inv w -> serial_inv w'.
Proof.
  intros (H1 & H2 & H3 & H4) (o & Ho & Hl). exists o. split.
  - intros h Hh. auto.
  - rewrite H2, H4. destruct (loads (tasks w)) as [|[] []]; try done.
    + auto.
    + destruct Hl as [-> Hl]. auto.
Qed.

Lemma mount_serial_inv url : serial_inv (mount url).
Proof. exists None. split; [|done]. intros h. unfold loaded. by destruct h. Qed.

Lemma serial_inv_loadSound w :
  mounted w = true -> loads (tasks w) = [] ->
  serial_inv w -> serial_inv (loadSound w).
Proof.
  intros Hm Hl (o & Ho & Hinv). rewrite Hl in Hinv. specialize (Hinv Hm).
  destruct w as [u [snd pl ld pos dur err] m cs iv e ts cl un].
  simpl in Hm, Hl, Ho, Hinv. subst m o.
  exists snd. split; [by destruct snd|].
  destruct snd as [h|].
  - wnorm_term (loadSound
      (World u (Comp (Some h) pl ld pos dur err) true cs iv e ts cl un)).
    simpl. by rewrite loads_app, Hl.
  - wnorm_term (loadSound
      (World u (Comp None pl ld pos dur err) true cs iv e ts cl un)).
    simpl. by rewrite loads_app, Hl.
Qed.

Lemma setState_eng f w : eng (setState f w) = eng w.
Proof. unfold setState. by destruct (mounted w). Qed.
Lemma setState_tasks f w : tasks (setState f w) = tasks w.
Proof. unfold setState. by destruct (mounted w). Qed.
Lemma setState_mounted f w : mounted (setState f w) = mounted w.
Proof. unfold setState. by destruct (mounted w) eqn:E. Qed.
Lemma setState_st f w :
  st (setState f w) = if mounted w then f (st w) else st w.
Proof. unfold setState. by destruct (mounted w). Qed.

Lemma report_eng h w : eng (report h w) = eng w.
Proof.
  unfold report, onPlaybackStatusUpdate, setIsPlaying, setDuration,
    setPosition, setError.
  repeat case_match; by rewrite ?setState_eng.
Qed.
Lemma report_tasks h w : tasks (report h w) = tasks w.
Proof.
  unfold report, onPlaybackStatusUpdate, setIsPlaying, setDuration,
    setPosition, setError.
  repeat case_match; by rewrite ?setState_tasks.
Qed.
Lemma report_mounted h w : mounted (report h w) = mounted w.
Proof.
  unfold report, onPlaybackStatusUpdate, setIsPlaying, setDuration,
    setPosition, setError.
  repeat case_match; by rewrite ?setState_mounted.
Qed.
Lemma report_sound h w : sound (st (report h w)) = sound (st w).
Proof. by destruct (calm_report h w w (calm_refl w)) as (_ & _ & _ & ?). Qed.

Lemma calm_loadSound_catch w0 w : calm w0 w -> calm w0 (loadSound_catch w).
Proof. intros H. unfold loadSound_catch. auto with calm. Qed.

Lemma serial_inv_settle_load i t o w :
  tasks w !! i = Some t -> is_load t = true ->
  serial_inv w ->
  serial_inv (settle t o (set_tasks (delete i (tasks w)) w)).
Proof.
  intros Hi Ht (x & Hx & Hinv).
  destruct (loads (tasks w)) as [|t' l] eqn:El.
  { exfalso. pose proof (take_drop_middle _ _ _ Hi) as Hsplit.
    unfold loads in El. rewrite <- Hsplit, filter_app, filter_cons in El.
    rewrite decide_True in El by done. by destruct (filter _ (take i (tasks w))). }
  destruct l as [|t'' l]; [|by destruct t'].
  destruct (loads_delete_only i t t' _ Hi Ht El) as [-> Hdel].
  set (w' := set_tasks (delete i (tasks w)) w).
  assert (Hrest : forall o', loaded_within (eng w) o' ->
                    (mounted w = true -> o' = sound (st w)) -> serial_inv w').
  { intros o' H1 H2. exists o'. split; [done|]. simpl. by rewrite Hdel. }
  destruct t as [h url|url| | | | | | | | |]; try discriminate Ht.
  - (* the unload settles *)
    destruct Hinv as [-> Hsnd]. destruct o as [d|]; unfold settle.
    + exists None. split.
      * intros h' Hh. simpl in Hh. rewrite report_eng in Hh. simpl in Hh.
        apply loaded_unload in Hh as [Hh Hne].
        specialize (Hx h' Hh). congruence.
      * simpl. rewrite loads_app, report_tasks. simpl. by rewrite Hdel.
    + apply (calm_serial_inv w'); [by apply calm_loadSound_catch|].
      apply (Hrest (Some h)); [done|]. intros Hm. by rewrite Hsnd.
  - (* the create settles *)
    subst x. destruct o as [d|]; unfold settle.
    + exists (Some (length (eng w))). unfold setIsLoading, setSound. split.
      * intros h Hh. rewrite !setState_eng, report_eng in Hh. simpl in Hh.
        apply loaded_fresh in Hh as [Hh| ->]; [|done].
        by specialize (Hx h Hh).
      * rewrite !setState_tasks, report_tasks. simpl. rewrite Hdel.
        rewrite !setState_mounted, report_mounted. simpl. intros Hm.
        rewrite !setState_st, !setState_mounted, report_mounted. simpl.
        by rewrite Hm.
    + apply (calm_serial_inv w'); [by apply calm_loadSound_catch|].
      apply (Hrest (sound (st w))); [|done].
      intros h Hh. by specialize (Hx h Hh).
Qed.

Lemma calm_delete_other i t w :
  tasks w !! i = Some t -> is_load t = false ->
  calm w (set_tasks (delete i (tasks w)) w).
Proof.
  intros Hi Ht. repeat split; try done. simpl.
  by apply (loads_delete_other i t).
Qed.

Lemma calm_trans w1 w2 w3 : calm w1 w2 -> calm w2 w3 -> calm w1 w3.
Proof.
  intros (A1 & A2 & A3 & A4) (B1 & B2 & B3 & B4).
  repeat split; [auto | congruence | auto | congruence].
Qed.

Lemma serial_inv_handle_event ev w :
  serial_inv w ->
  issues_load ev w && load_pending w = false ->
  serial_inv (handle_event ev w).
Proof.
  intros Hw Hser. destruct ev as [url| |b|i o| |h dt|h msg]; unfold handle_event.
  - simpl in Hser.
    destruct (mounted w && negb (url =? audioUrl w)%string) eqn:C; [|done].
    simpl in Hser. apply andb_true_iff in C as [Hm _].
    set (w2 := soundCleanup (set_props url w)).
    assert (Hc : calm w w2) by (unfold w2; auto with calm).
    assert (Hk : keeps w w2) by (unfold w2; auto with keeps).
    apply (calm_serial_inv (loadSound w2)); [auto with calm|].
    apply serial_inv_loadSound.
    + destruct Hk as (_ & -> & _). exact Hm.
    + destruct Hc as (_ & -> & _). by apply no_load_pending.
    + by apply (calm_serial_inv w).
  - case_match; [|done].
    apply (calm_serial_inv w); [|done]. auto with calm.
  - destruct (mounted w) eqn:Hm; [|done]. unfold press.
    destruct (render (st w)) eqn:R; destruct b; try done;
      try solve [apply (calm_serial_inv w); [auto with calm | done]].
    simpl in Hser. rewrite Hm, R in Hser. simpl in Hser.
    apply serial_inv_loadSound; [done | by apply no_load_pending | done].
  - destruct (tasks w !! i) as [t|] eqn:Hi; [|done].
    destruct (is_load t) eqn:Ht.
    + by apply serial_inv_settle_load.
    + apply (calm_serial_inv w); [|done].
      apply calm_settle; [done|]. by apply (calm_delete_other i t).
  - case_match; [|done]. apply (calm_serial_inv w); [|done]. auto with calm.
  - case_match; [|done]. apply (calm_serial_inv w); [|done].
    apply calm_report, calm_set_eng; [|apply calm_refl].
    intros h'. by rewrite loaded_elapse.
  - case_match; [|done]. apply (calm_serial_inv w); [|done]. auto with calm.
Qed.

Lemma serial_inv_step ev w :
  serial_inv w ->
  issues_load ev w && load_pending w = false ->
  serial_inv (step ev w).
Proof.
  intros Hw Hser. unfold step.
  apply (calm_serial_inv (handle_event ev w)).
  - apply calm_pollingEffect, calm_refl.
  - by apply serial_inv_handle_event.
Qed.

Lemma serial_inv_run evs : forall w,
  serial_inv w -> serial evs w = true -> serial_inv (run evs w).
Proof.
  induction evs as [|ev evs IH]; intros w Hw Hser; [done|].
  simpl in Hser. apply andb_true_iff in Hser as [H1 H2].
  rewrite run_cons. apply IH; [|done].
  apply serial_inv_step; [done|]. by apply negb_true_iff.
Qed.

(** C2, as stated, fails: a second load issued while the first is
    still in flight finds no sound to release; when both have settled
    the engine holds two sounds. *)
Lemma overlapping_loads_hold_two_sounds :
  let ok := Fulfilled (Some 10000%Z) in
  let w := run [EvSetUrl "b.mp3"; EvSettle 0 ok; EvSettle 0 ok]
               (mount "a.mp3") in
  reachable w
  /\ calls w = [CCreate "a.mp3"; CCreate "b.mp3"]
  /\ held (eng w) = 2.
Proof.
  cbv zeta. split; [|split; vm_compute; reflexivity].
  by exists "a.mp3", [EvSetUrl "b.mp3"; EvSettle 0 (Fulfilled (Some 10000%Z));
                      EvSettle 0 (Fulfilled (Some 10000%Z))].
Qed.

(** C2, amended: a load issued while the component holds a sound
    calls unloadAsync on it and calls createAsync only when that has
    settled, the old sound being released by then.  In every run in
    which no load is issued while another is in flight, the engine
    never holds two sounds at once, and while the player is mounted
    with no load in flight every sound the engine holds is the one the
    component stores. *)
Theorem load_releases_before_acquiring :
  (forall (w : world) (h : handle) (d : option Z),
      sound (st w) = Some h ->
      let n := length (tasks w) in
      let w1 := loadSound w in
      let w2 := step (EvSettle n (Fulfilled d)) w1 in
      calls w1 = (calls w ++ [CUnload h])%list
      /\ eng w1 = eng w
      /\ calls w2 = (calls w ++ [CUnload h; CCreate (audioUrl w)])%list
      /\ eng w2 = unload h (eng w)
      /\ loaded (eng w2) h = false
      /\ tasks w2 = (tasks w ++ [LoadCreating (audioUrl w)])%list)
  /\ (forall (url : string) (evs : list event),
      serial evs (mount url) = true ->
      let w := run evs (mount url) in
      held (eng w) <= 1
      /\ (mounted w = true -> load_pending w = false ->
          forall h, loaded (eng w) h = true -> sound (st w) = Some h)).
Proof.
  split.
  - intros w h d Hs n w1 w2.
    destruct w as [u [snd pl ld pos dur err] m cs iv e ts cl un].
    simpl in Hs. subst snd. subst n. simpl tasks in *. simpl calls.
    simpl eng. simpl audioUrl.
    destruct m.
    + world_is w1 E1 ltac:(
        wnorm_term (loadSound
          (World u (Comp (Some h) pl ld pos dur err) true cs iv e ts cl un))).
      clearbody w1. subst w1.
      world_is w2 E2 ltac:(
        settle_last; rewrite status_of_unload; wnorm; poll).
      clearbody w2. subst w2. simpl.
      rewrite <- app_assoc. repeat split; try done.
      apply loaded_unload_same.
    + world_is w1 E1 ltac:(
        wnorm_term (loadSound
          (World u (Comp (Some h) pl ld pos dur err) false cs iv e ts cl un))).
      clearbody w1. subst w1.
      world_is w2 E2 ltac:(
        settle_last; rewrite status_of_unload; wnorm; poll).
      clearbody w2. subst w2. simpl.
      rewrite <- app_assoc. repeat split; try done.
      apply loaded_unload_same.
  - intros url evs Hser w.
    destruct (serial_inv_run evs (mount url) (mount_serial_inv url) Hser)
      as (o & Ho & Hl).
    split; [by apply (held_within _ o)|].
    intros Hm Hp h Hh. fold w in Hl.
    rewrite (no_load_pending w Hp) in Hl.
    rewrite <- (Hl Hm). by apply Ho.
Qed.

Lemma load_releases_before_acquiring_witness :
  let ok := Fulfilled (Some 10000%Z) in
  let w := run [EvSettle 0 ok] (mount "a.mp3") in
  let evs := [EvSettle 0 ok; EvSetUrl "b.mp3"; EvSettle 0 ok; EvSettle 0 ok;
              EvSetUrl "c.mp3"; EvSettle 0 ok; EvSettle 0 Rejected;
              EvPress BtnRetry; EvSettle 0 ok; EvSettle 0 ok; EvUnmount] in
  sound (st w) = Some 0
  /\ calls (loadSound w) = (calls w ++ [CUnload 0])%list
  /\ loaded (eng (step (EvSettle 0 ok) (loadSound w))) 0 = false
  /\ serial evs (mount "a.mp3") = true
  /\ held (eng (run evs (mount "a.mp3"))) <= 1.
Proof.
  intros ok w evs.
  destruct load_releases_before_acquiring as [Ha Hb].
  destruct (Ha w 0 (Some 10000%Z) eq_refl) as (Hc & _ & _ & _ & Hl & _).
  split; [vm_compute; reflexivity|].
  split; [exact Hc|]. split; [exact Hl|].
  split; [vm_compute; reflexivity|].
  apply Hb. vm_compute. reflexivity.
Defined.

(** Unmounting does not release the sound: the cleanup of the
    [audioUrl] effect closed over the [sound] of the render in which
    the effect last ran, which after mounting is [null]. *)
Example unmount_leaves_sound_loaded :
  let w := run [EvSettle 0 (Fulfilled (Some 10000%Z)); EvUnmount]
               (mount "a.mp3") in
  mounted w = false
  /\ tasks w = []
  /\ calls w = [CCreate "a.mp3"]
  /\ held (eng w) = 1.
Proof. vm_compute. repeat split. Qed.

(** *** Restart, pause and the poll *)

Lemma status_of_loaded h (e : engine) :
  loaded e h = true ->
  exists s, e !! h = Some s /\ isLoaded s = true
            /\ status_of e h
               = StLoaded (positionMillis s) (durationMillis s) (playing s).
Proof.
  unfold loaded, status_of. destruct (e !! h) as [s|]; [|done].
  intros Hl. exists s. by rewrite Hl.
Qed.

(** X1: With a sound held and loaded, restartAudio calls setPositionAsync(0)
    and, only when the play flag was off, playAsync after it: a halted
    player ends playing from position 0, a playing one is sent back to
    position 0 and no second call is made. *)
Theorem restart_seeks_and_plays_if_halted (w : world) (h : handle)
    (d1 d2 : option Z) :
  mounted w = true ->
  sound (st w) = Some h ->
  loaded (eng w) h = true ->
  let n := length (tasks w) in
  let w1 := restartAudio w in
  let w2 := step (EvSettle n (Fulfilled d1)) w1 in
  let w3 := step (EvSettle n (Fulfilled d2)) w2 in
  calls w1 = (calls w ++ [CSetPosition h 0])%list
  /\ position (st w2) = 0%Z
  /\ (isPlaying (st w) = true ->
      calls w2 = calls w1 /\ tasks w2 = tasks w
      /\ exists pos dur pl,
          status_of (eng w) h = StLoaded pos dur pl
          /\ status_of (eng w2) h = StLoaded 0 dur pl)
  /\ (isPlaying (st w) = false ->
      calls w3 = (calls w ++ [CSetPosition h 0; CPlay h])%list
      /\ tasks w3 = tasks w
      /\ position (st w3) = 0%Z
      /\ isPlaying (st w3) = true
      /\ exists dur, status_of (eng w3) h = StLoaded 0 dur true).
Proof.
  intros Hm Hs Hl n w1 w2 w3.
  destruct w as [url [snd pl ld pos dur err] m cs iv e ts cl un].
  simpl in Hm, Hs, Hl. subst m snd.
  destruct (perform_loaded d1 (OpSetPosition 0) h e Hl) as (s & E & Hls & Hseek).
  assert (Hlt : h < length e) by (by eapply lookup_lt_Some).
  subst n. simpl tasks in *. simpl calls. simpl st. simpl eng.
  simpl isPlaying.
  world_is w1 E1 ltac:(
    wnorm_term (restartAudio
      (World url (Comp (Some h) pl ld pos dur err) true cs iv e ts cl un))).
  clearbody w1. subst w1.
  destruct pl.
  - world_is w2 E2 ltac:(
      settle_last; rewrite Hseek; change (negb true) with false; wnorm;
      rewrite status_of_insert by done; wnorm; poll).
    clearbody w2. subst w2. simpl.
    repeat split; try done.
    exists (positionMillis s), (durationMillis s), (playing s).
    rewrite status_of_insert by done. split; [|done].
    unfold status_of. by rewrite E, Hls.
  - world_is w2 E2 ltac:(
      settle_last; rewrite Hseek; change (negb false) with true; wnorm;
      rewrite status_of_insert by done; wnorm; poll).
    clearbody w2. subst w2.
    world_is w3 E3 ltac:(
      settle_last; rewrite perform_insert by done; wnorm;
      rewrite status_of_insert by done; wnorm; poll).
    clearbody w3. subst w3. simpl.
    rewrite <- app_assoc. repeat split; try done.
    rewrite status_of_insert by done. simpl. eauto.
Qed.

Lemma restart_seeks_and_plays_if_halted_witness :
  let w := run [EvSettle 0 (Fulfilled (Some 10000%Z)); EvPress BtnPlayPause;
                EvSettle 0 (Fulfilled None); EvElapse 0 4000;
                EvPress BtnPlayPause; EvSettle 0 (Fulfilled None)]
               (mount "a.mp3") in
  let w3 := run [EvSettle 0 (Fulfilled None); EvSettle 0 (Fulfilled None)]
                (restartAudio w) in
  position (st w) = 4000%Z
  /\ isPlaying (st w) = false
  /\ position (st w3) = 0%Z
  /\ isPlaying (st w3) = true.
Proof.
  intros w w3.
  pose proof (restart_seeks_and_plays_if_halted w 0 None None
                eq_refl eq_refl eq_refl) as H.
  cbv zeta in H. destruct H as (_ & _ & _ & H).
  destruct (H eq_refl) as (_ & _ & Hpos & Hpl & _).
  do 2 (split; [vm_compute; reflexivity|]).
  split; [exact Hpos | exact Hpl].
Defined.

(** X2: With a sound held and loaded, pressing play/pause while the play
    flag is set calls pauseAsync and nothing else; when it has settled
    the play flag is off, the position is where playback was, and the
    sound is still the stored, loaded one. *)
Theorem pause_keeps_position_and_sound (w : world) (h : handle)
    (d : option Z) :
  mounted w = true ->
  sound (st w) = Some h ->
  loaded (eng w) h = true ->
  isPlaying (st w) = true ->
  let n := length (tasks w) in
  let w1 := togglePlayPause w in
  let w2 := step (EvSettle n (Fulfilled d)) w1 in
  calls w2 = (calls w ++ [CPause h])%list
  /\ tasks w2 = tasks w
  /\ isPlaying (st w2) = false
  /\ sound (st w2) = Some h
  /\ (forall h', loaded (eng w2) h' = loaded (eng w) h')
  /\ exists pos dur pl,
      status_of (eng w) h = StLoaded pos dur pl
      /\ status_of (eng w2) h = StLoaded pos dur false
      /\ position (st w2) = pos.
Proof.
  intros Hm Hs Hl Hp n w1 w2.
  destruct w as [url [snd pl ld pos dur err] m cs iv e ts cl un].
  simpl in Hm, Hs, Hl, Hp. subst m snd pl.
  destruct (perform_loaded d OpPause h e Hl) as (s & E & Hls & Hpause).
  assert (Hlt : h < length e) by (by eapply lookup_lt_Some).
  subst n. simpl tasks in *. simpl calls. simpl st. simpl eng.
  world_is w1 E1 ltac:(
    wnorm_term (togglePlayPause
      (World url (Comp (Some h) true ld pos dur err) true cs iv e ts cl un))).
  clearbody w1. subst w1.
  world_is w2 E2 ltac:(
    settle_last; rewrite Hpause; wnorm;
    rewrite status_of_insert by done; wnorm; poll).
  clearbody w2. subst w2. simpl.
  repeat split; try done.
  - intros h'. by apply (loaded_insert h h' s e E).
  - exists (positionMillis s), (durationMillis s), (playing s).
    rewrite status_of_insert by done. repeat split.
    unfold status_of. by rewrite E, Hls.
Qed.

Lemma pause_keeps_position_and_sound_witness :
  let w := run [EvSettle 0 (Fulfilled (Some 10000%Z)); EvPress BtnPlayPause;
                EvSettle 0 (Fulfilled None); EvElapse 0 4000]
               (mount "a.mp3") in
  let w2 := step (EvSettle 0 (Fulfilled None)) (togglePlayPause w) in
  isPlaying (st w) = true
  /\ calls w2 = (calls w ++ [CPause 0])%list
  /\ isPlaying (st w2) = false
  /\ position (st w2) = 4000%Z.
Proof.
  intros w w2.
  pose proof (pause_keeps_position_and_sound w 0 None
                eq_refl eq_refl eq_refl eq_refl) as H.
  cbv zeta in H. destruct H as (Hc & _ & Hpl & _ & _ & Hpos).
  split; [vm_compute; reflexivity|].
  split; [exact Hc|]. split; [exact Hpl|].
  vm_compute. reflexivity.
Defined.

Lemma step_tick (snd : option handle) w :
  interval w = Some snd ->
  step EvTick w = pollingEffect (st w) (intervalCallback snd w).
Proof. intros H. unfold step, handle_event. by rewrite H. Qed.

Lemma settle_poll h d w pos dur pl :
  status_of (eng w) h = StLoaded pos dur pl ->
  settle (PollStatus h) (Fulfilled d) w
  = setDuration (default 0%Z dur)
      (setPosition pos
         (setIsPlaying pl
            (setDuration (default 0%Z dur) (setPosition pos w)))).
Proof. intros H. unfold settle, report. by rewrite H. Qed.

(** X3: A tick of the running interval calls getStatusAsync on the stored
    sound; when it settles on a loaded sound, position and duration are
    those of the engine (an unknown duration reads 0) and the engine is
    as it was.  Without an interval a tick does nothing. *)
Theorem poll_copies_engine_snapshot (w : world) (h : handle) (d : option Z) :
  mounted w = true ->
  interval w = Some (Some h) ->
  loaded (eng w) h = true ->
  let n := length (tasks w) in
  let w1 := step EvTick w in
  let w2 := step (EvSettle n (Fulfilled d)) w1 in
  calls w1 = (calls w ++ [CGetStatus h])%list
  /\ calls w2 = calls w1
  /\ tasks w2 = tasks w
  /\ eng w2 = eng w
  /\ sound (st w2) = sound (st w)
  /\ error (st w2) = error (st w)
  /\ isLoading (st w2) = isLoading (st w)
  /\ exists pos dur pl,
      status_of (eng w) h = StLoaded pos dur pl
      /\ position (st w2) = pos
      /\ duration (st w2) = default 0%Z dur
      /\ isPlaying (st w2) = pl.
Proof.
  intros Hm Hi Hl n w1 w2.
  destruct w as [url [snd pl ld pos dur err] m cs iv e ts cl un].
  simpl in Hm, Hi, Hl. subst m iv.
  destruct (status_of_loaded h e Hl) as (s & E & Hls & Hst).
  subst n. simpl tasks in *. simpl calls. simpl st. simpl eng.
  world_is w1 E1 ltac:(
    erewrite step_tick by reflexivity; wnorm; poll).
  clearbody w1. subst w1.
  world_is w2 E2 ltac:(
    erewrite step_settle by (simpl; apply lookup_last_task);
    simpl tasks; rewrite delete_last_task;
    erewrite settle_poll by (simpl; exact Hst);
    wnorm; poll).
  clearbody w2. subst w2. simpl.
  repeat split; try done. eauto 10.
Qed.

Lemma poll_copies_engine_snapshot_witness :
  let w := run [EvSettle 0 (Fulfilled (Some 10000%Z)); EvPress BtnPlayPause;
                EvSettle 0 (Fulfilled None); EvElapse 0 1000]
               (mount "a.mp3") in
  let w2 := run [EvTick; EvSettle 0 (Fulfilled None)] w in
  interval w = Some (Some 0)
  /\ eng w2 = eng w
  /\ sound (st w2) = Some 0.
Proof.
  intros w w2.
  pose proof (poll_copies_engine_snapshot w 0 None eq_refl eq_refl eq_refl) as H.
  cbv zeta in H. destruct H as (_ & _ & _ & He & Hs & _).
  split; [vm_compute; reflexivity|].
  split; [exact He | exact Hs].
Defined.

(** *** What a run never does *)

Lemma step_keeps_sound ev w :
  sound (st (step ev w)) = None -> sound (st w) = None.
Proof.
  unfold step. rewrite pollingEffect_st.
  destruct (unmount_or_not ev) as [->|Hev].
  - unfold handle_event. case_match; [|done].
    simpl. by rewrite soundCleanup_sound.
  - by apply (keeps_handle_event ev w Hev).
Qed.

(** X4: The stored sound is never cleared: once a load has succeeded, no
    event (a failed load, an error of the decoder, unmounting) sets
    [sound] back to [null]. *)
Theorem stored_sound_is_never_cleared (w : world) (h : handle)
    (evs : list event) :
  sound (st w) = Some h ->
  exists h', sound (st (run evs w)) = Some h'.
Proof.
  revert w h. induction evs as [|ev evs IH]; intros w h Hs; [by exists h|].
  rewrite run_cons.
  destruct (sound (st (step ev w))) as [h1|] eqn:E.
  - by apply (IH _ h1).
  - apply step_keeps_sound in E. congruence.
Qed.

Lemma stored_sound_is_never_cleared_witness :
  exists h',
    sound (st (run [EvSetUrl "bad-url"; EvSettle 0 (Fulfilled None);
                    EvSettle 0 Rejected; EvPlaybackError 0 "x"; EvUnmount]
                   (run [EvSettle 0 (Fulfilled None)] (mount "a.mp3"))))
    = Some h'.
Proof.
  apply (stored_sound_is_never_cleared _ 0). vm_compute. reflexivity.
Defined.

(** *** Retry *)

(** X5: While the error is shown, Retry is the only button that does
    anything: it clears the error, shows the loading view and starts a
    load of the same [audioUrl], first releasing the stored sound if
    there is one. *)
Theorem retry_reloads_same_url (w : world) (message : string) :
  mounted w = true ->
  render (st w) = ErrorView message ->
  let w1 := step (EvPress BtnRetry) w in
  (forall b, b <> BtnRetry -> step (EvPress b) w = w)
  /\ audioUrl w1 = audioUrl w
  /\ playbackState (st w1) = Loading
  /\ error (st w1) = None
  /\ calls w1
     = (calls w ++ [match sound (st w) with
                    | Some h => CUnload h
                    | None => CCreate (audioUrl w)
                    end])%list
  /\ tasks w1
     = (tasks w ++ [match sound (st w) with
                    | Some h => LoadUnloading h (audioUrl w)
                    | None => LoadCreating (audioUrl w)
                    end])%list.
Proof.
  intros Hm Hr w1. split.
  - intros b Hb. unfold step, handle_event, press. rewrite Hm, Hr.
    destruct b; try done; apply pollingEffect_same.
  - assert (E : w1 = pollingEffect (st w) (loadSound w)).
    { unfold w1, step, handle_event, press. by rewrite Hm, Hr. }
    clearbody w1. subst w1.
    destruct w as [url [snd pl ld pos dur err] m cs iv e ts cl un].
    simpl in Hm. subst m. clear Hr.
    destruct snd as [h|]; simpl st; wnorm; poll; by simpl.
Qed.

Lemma retry_reloads_same_url_witness :
  let w := step (EvSettle 0 Rejected) (mount "a.mp3") in
  let w1 := step (EvPress BtnRetry) w in
  playbackState (st w) = Error "Failed to load audio"
  /\ playbackState (st w1) = Loading
  /\ calls w1 = [CCreate "a.mp3"; CCreate "a.mp3"].
Proof.
  intros w w1.
  pose proof (retry_reloads_same_url w "Failed to load audio"
                eq_refl eq_refl) as H.
  cbv zeta in H. destruct H as (_ & _ & Hs & _ & Hc & _).
  split; [vm_compute; reflexivity|]. split; [exact Hs | exact Hc].
Defined.

(** *** A reload that runs to its end *)

(** X6: With a sound of the engine stored, a load whose unloadAsync and
    createAsync are both fulfilled ends with the old sound released, a
    new sound created for the current [audioUrl], stored and loaded,
    and the state Ready (position 0, play flag off, no error) with the
    duration the decoder reported, or 0 when it reported none. *)
Theorem reload_replaces_the_sound (w : world) (h : handle)
    (d1 dur : option Z) :
  mounted w = true ->
  sound (st w) = Some h ->
  h < length (eng w) ->
  let n := length (tasks w) in
  let w1 := loadSound w in
  let w2 := step (EvSettle n (Fulfilled d1)) w1 in
  let w3 := step (EvSettle n (Fulfilled dur)) w2 in
  playbackState (st w1) = Loading
  /\ calls w3 = (calls w ++ [CUnload h; CCreate (audioUrl w)])%list
  /\ tasks w3 = tasks w
  /\ sound (st w3) = Some (length (eng w))
  /\ eng w3 = (unload h (eng w) ++ [fresh_sound (audioUrl w) dur])%list
  /\ loaded (eng w3) h = false
  /\ loaded (eng w3) (length (eng w)) = true
  /\ playbackState (st w3) = Ready
  /\ duration (st w3) = default 0%Z dur.
Proof.
  intros Hm Hs Hlt n w1 w2 w3.
  destruct w as [url [snd pl ld pos dur0 err] m cs iv e ts cl un].
  simpl in Hm, Hs, Hlt. subst m snd.
  subst n. simpl tasks in *. simpl calls. simpl st. simpl eng. simpl audioUrl.
  assert (Hlen : length (unload h e) = length e) by apply length_alter.
  world_is w1 E1 ltac:(
    wnorm_term (loadSound
      (World url (Comp (Some h) pl ld pos dur0 err) true cs iv e ts cl un))).
  clearbody w1. subst w1.
  world_is w2 E2 ltac:(
    settle_last; rewrite status_of_unload;
    change (truthy None) with false; wnorm; poll).
  clearbody w2. subst w2.
  world_is w3 E3 ltac:(
    settle_last; rewrite status_of_fresh; wnorm; poll).
  clearbody w3. subst w3. simpl. rewrite Hlen.
  rewrite <- app_assoc. repeat split; try done.
  - unfold loaded. rewrite lookup_app_l by (by rewrite Hlen).
    apply loaded_unload_same.
  - unfold loaded. rewrite <- Hlen. by rewrite list_lookup_middle.
Qed.

Lemma reload_replaces_the_sound_witness :
  let w := step (EvSetUrl "b.mp3")
                (run [EvSettle 0 (Fulfilled None)] (mount "a.mp3")) in
  let w3 := run [EvSettle 1 (Fulfilled None);
                 EvSettle 1 (Fulfilled (Some 5000%Z))]
                (loadSound w) in
  sound (st w) = Some 0
  /\ sound (st w3) = Some 1
  /\ loaded (eng w3) 0 = false
  /\ duration (st w3) = 5000%Z.
Proof.
  intros w w3.
  assert (Hlt : 0 < length (eng w)) by (vm_compute; lia).
  pose proof (reload_replaces_the_sound w 0 None (Some 5000%Z)
                eq_refl eq_refl Hlt) as H.
  cbv zeta in H. destruct H as (_ & _ & _ & Hs & _ & Hl & _ & _ & Hd).
  split; [vm_compute; reflexivity|].
  split; [exact Hs|]. split; [exact Hl | exact Hd].
Defined.

(** *** Transport calls that fail *)

Lemma perform_none o op h (e : engine) :
  o = Rejected \/ loaded e h = false -> perform o op h e = None.
Proof.
  unfold perform, loaded. intros [->|H]; [done|].
  destruct o; [|done]. destruct (e !! h); [|done]. by rewrite H.
Qed.

(** X7: A play, pause, stop or seek that fails (the call is rejected, or
    the sound is no longer loaded) changes neither the engine nor the
    calls made.  Only togglePlayPause tells the user: it sets the error
    "Failed to play/pause audio"; stopAudio and restartAudio log and go
    on, leaving the state as it was, and none of them makes its next
    call. *)
Theorem failed_transport_call_shown_by_toggle_only (w : world) (i : nat)
    (t : task) (h : handle) (o : outcome) :
  mounted w = true ->
  tasks w !! i = Some t ->
  o = Rejected \/ loaded (eng w) h = false ->
  let w' := step (EvSettle i o) w in
  (In t [TogglePausing h; ToggleSeeking h; TogglePlaying h] ->
   error (st w') = Some "Failed to play/pause audio"
   /\ sound (st w') = sound (st w)
   /\ isPlaying (st w') = isPlaying (st w)
   /\ position (st w') = position (st w)
   /\ eng w' = eng w /\ calls w' = calls w
   /\ tasks w' = delete i (tasks w))
  /\ (In t [StopStopping h; StopSeeking h; RestartSeeking h true;
            RestartSeeking h false; RestartPlaying h] ->
      st w' = st w
      /\ eng w' = eng w /\ calls w' = calls w
      /\ tasks w' = delete i (tasks w)).
Proof.
  intros Hm Ht Ho w'.
  destruct w as [url [snd pl ld pos dur err] m cs iv e ts cl un].
  simpl in Hm, Ht, Ho. subst m. simpl st. simpl eng. simpl calls. simpl tasks.
  split; intros Hin; simpl in Hin;
    repeat (destruct Hin as [<-|Hin]; [|]); try done;
    (world_is w' E ltac:(
       erewrite step_settle by (simpl; exact Ht);
       unfold settle; simpl eng;
       rewrite (perform_none o _ h e Ho); wnorm; poll));
    clearbody w'; by subst w'.
Qed.

Lemma failed_transport_call_shown_by_toggle_only_witness :
  let w := run [EvSettle 0 (Fulfilled None); EvPress BtnPlayPause]
               (mount "a.mp3") in
  let w' := step (EvSettle 0 Rejected) w in
  tasks w = [TogglePlaying 0]
  /\ error (st w') = Some "Failed to play/pause audio"
  /\ tasks w' = [].
Proof.
  intros w w'.
  pose proof (failed_transport_call_shown_by_toggle_only
                w 0 (TogglePlaying 0) 0 Rejected eq_refl eq_refl
                (or_introl eq_refl)) as H.
  cbv zeta in H. destruct H as [H _].
  destruct H as (He & _ & _ & _ & _ & _ & Hts);
    [right; right; left; reflexivity|].
  split; [vm_compute; reflexivity|]. split; [exact He | exact Hts].
Defined.

(** *** The controls and the stored sound *)

Lemma busy_setState f w :
  (forall c, PlayerGuards.busy c -> PlayerGuards.busy (f c)) ->
  PlayerGuards.busy (st w) -> PlayerGuards.busy (st (setState f w)).
Proof.
  intros Hf H. destruct w as [u c [] cs iv e ts cl un]; [|done].
  by apply Hf.
Qed.

Lemma busy_setSound h w :
  PlayerGuards.busy (st w) -> PlayerGuards.busy (st (setSound (Some h) w)).
Proof. apply busy_setState. by intros c _ ?. Qed.

Lemma busy_setIsPlaying v w :
  PlayerGuards.busy (st w) -> PlayerGuards.busy (st (setIsPlaying v w)).
Proof. by apply busy_setState. Qed.

Lemma busy_setPosition v w :
  PlayerGuards.busy (st w) -> PlayerGuards.busy (st (setPosition v w)).
Proof. by apply busy_setState. Qed.

Lemma busy_setDuration v w :
  PlayerGuards.busy (st w) -> PlayerGuards.busy (st (setDuration v w)).
Proof. by apply busy_setState. Qed.

Lemma busy_setError s w :
  truthy (Some s) = true ->
  PlayerGuards.busy (st w) -> PlayerGuards.busy (st (setError (Some s) w)).
Proof. intros Hs. apply busy_setState. intros c _ _. by left. Qed.

(** The three places where the loading flag or the error is cleared:
    each does so together with what makes up for it. *)
Lemma busy_loadSound w :
  PlayerGuards.busy (st w) -> PlayerGuards.busy (st (loadSound w)).
Proof.
  destruct w as [u c [] cs iv e ts cl un]; unfold loadSound; simpl;
    destruct (sound c); try done; intros _ _; by right.
Qed.

Lemma busy_loadSound_catch w :
  PlayerGuards.busy (st w) -> PlayerGuards.busy (st (loadSound_catch w)).
Proof.
  destruct w as [u c [] cs iv e ts cl un]; [|done]. intros _ _. by left.
Qed.

Lemma busy_created h w :
  PlayerGuards.busy (st w) ->
  PlayerGuards.busy (st (setIsLoading false (setSound (Some h) w))).
Proof. destruct w as [u c [] cs iv e ts cl un]; [|done]. by intros _ ?. Qed.

Lemma busy_togglePlayPause_catch w :
  PlayerGuards.busy (st w) -> PlayerGuards.busy (st (togglePlayPause_catch w)).
Proof. by apply busy_setError. Qed.

Lemma busy_onPlaybackStatusUpdate status w :
  PlayerGuards.busy (st w) ->
  PlayerGuards.busy (st (onPlaybackStatusUpdate status w)).
Proof.
  intros H. unfold onPlaybackStatusUpdate. destruct status.
  - by apply busy_setIsPlaying, busy_setDuration, busy_setPosition.
  - case_match; [|done]. by apply busy_setError.
Qed.

Lemma busy_report h w :
  PlayerGuards.busy (st w) -> PlayerGuards.busy (st (report h w)).
Proof. apply busy_onPlaybackStatusUpdate. Qed.

Lemma busy_report_eng h e w :
  PlayerGuards.busy (st w) -> PlayerGuards.busy (st (report h (set_eng e w))).
Proof. intros H. by apply busy_report. Qed.

Create HintDb busy.
#[local] Hint Resolve busy_setSound busy_setIsPlaying busy_setPosition
  busy_setDuration busy_loadSound busy_loadSound_catch busy_created
  busy_togglePlayPause_catch busy_onPlaybackStatusUpdate busy_report
  busy_report_eng : busy.








(** *** Unmounting *)

Lemma cleanupSound_setState f w : cleanupSound (setState f w) = cleanupSound w.
Proof. unfold setState. by destruct (mounted w). Qed.

Lemma cleanupSound_onPlaybackStatusUpdate status w :
  cleanupSound (onPlaybackStatusUpdate status w) = cleanupSound w.
Proof.
  unfold onPlaybackStatusUpdate, setPosition, setDuration, setIsPlaying,
    setError.
  destruct status; [|case_match]; by rewrite ?cleanupSound_setState.
Qed.

Lemma cleanupSound_report h w : cleanupSound (report h w) = cleanupSound w.
Proof. apply cleanupSound_onPlaybackStatusUpdate. Qed.

Lemma cleanupSound_loadSound w : cleanupSound (loadSound w) = cleanupSound w.
Proof.
  unfold loadSound, setIsLoading, setError.
  destruct (sound (st w)); simpl; by rewrite !cleanupSound_setState.
Qed.

Lemma cleanupSound_settle t o w : cleanupSound (settle t o w) = cleanupSound w.
Proof.
  unfold settle, loadSound_catch, togglePlayPause_catch, setSound,
    setIsLoading, setError, setPosition, setDuration.
  destruct t; repeat case_match; simpl;
    by rewrite ?cleanupSound_setState, ?cleanupSound_report,
               ?cleanupSound_setState.
Qed.

Lemma cleanupSound_press b w : cleanupSound (press b w) = cleanupSound w.
Proof.
  unfold press, restartAudio, togglePlayPause, stopAudio.
  repeat case_match; try done. apply cleanupSound_loadSound.
Qed.

Lemma cleanupSound_pollingEffect prev w :
  cleanupSound (pollingEffect prev w) = cleanupSound w.
Proof. by rewrite pollingEffect_next. Qed.

Lemma cleanupSound_step ev w :
  PlayerTeardown.url_kept ev = true ->
  cleanupSound (step ev w) = cleanupSound w.
Proof.
  intros Hev. unfold step. rewrite cleanupSound_pollingEffect.
  unfold handle_event, soundCleanup, intervalCallback.
  destruct ev; try done; repeat case_match;
    by rewrite ?cleanupSound_press, ?cleanupSound_settle,
               ?cleanupSound_report, ?cleanupSound_onPlaybackStatusUpdate.
Qed.

Lemma cleanupSound_run evs : forall w,
  forallb PlayerTeardown.url_kept evs = true ->
  cleanupSound (run evs w) = cleanupSound w.
Proof.
  induction evs as [|ev evs IH]; intros w H; [done|].
  rewrite run_cons. simpl in H. apply andb_true_iff in H as [H1 H2].
  rewrite IH by done. by apply cleanupSound_step.
Qed.

(** X9: As long as the parent never changes [audioUrl], the cleanup of the
    load effect is the one created at mount, which closed over
    [sound = null]: unmounting then makes no engine call and releases
    nothing, so every sound that was loaded stays loaded; all it does
    is clear the interval. *)
Theorem unmount_releases_nothing_if_url_kept (url : string)
    (evs : list event) :
  forallb PlayerTeardown.url_kept evs = true ->
  let w := run evs (mount url) in
  let w' := step EvUnmount w in
  cleanupSound w = None
  /\ calls w' = calls w
  /\ eng w' = eng w
  /\ tasks w' = tasks w
  /\ st w' = st w
  /\ mounted w' = false
  /\ interval w' = None.
Proof.
  intros H w w'.
  assert (Hc : cleanupSound w = None) by (unfold w; by rewrite cleanupSound_run).
  destruct (reachable_invariants w) as [Hp _]; [by exists url, evs|].
  unfold poll_inv in Hp.
  assert (E : w' = if mounted w
                   then set_mounted false (set_interval None w) else w).
  { unfold w', step, handle_event, soundCleanup. rewrite Hc.
    rewrite pollingEffect_next. unfold next_interval, pollingEffect.
    by destruct (mounted w) eqn:Hm; simpl; rewrite ?Hm; destruct w. }
  clearbody w w'. subst w'.
  destruct (mounted w) eqn:Hm; simpl; [done|].
  by rewrite ?Hm in Hp.
Qed.

Lemma unmount_releases_nothing_if_url_kept_witness :
  let w := run [EvSettle 0 (Fulfilled None); EvPress BtnPlayPause;
                EvSettle 0 (Fulfilled None)] (mount "a.mp3") in
  let w' := step EvUnmount w in
  loaded (eng w) 0 = true
  /\ calls w' = calls w
  /\ eng w' = eng w.
Proof.
  intros w w'.
  pose proof (unmount_releases_nothing_if_url_kept "a.mp3"
                [EvSettle 0 (Fulfilled None); EvPress BtnPlayPause;
                 EvSettle 0 (Fulfilled None)] eq_refl) as H.
  cbv zeta in H. destruct H as (_ & Hcl & He & _).
  split; [vm_compute; reflexivity|]. split; [exact Hcl | exact He].
Defined.
End PlayerProperties.

(** ** Properties of the remaining URL helpers *)
Module R2FilesProperties.
Import R2Config R2Services R2Files ResolverProperties.

(** *** Suffixes *)

Lemma endsWith_nil p : endsWith "" p = true <-> p = "".
Proof.
  change (endsWith "" p) with (String.eqb "" p || false).
  rewrite orb_false_r, String.eqb_eq. split; congruence.
Qed.

Lemma endsWith_cons c s p :
  endsWith (String c s) p = true <-> String c s = p \/ endsWith s p = true.
Proof.
  change (endsWith (String c s) p)
    with (String.eqb (String c s) p || endsWith s p).
  by rewrite orb_true_iff, String.eqb_eq.
Qed.

Lemma endsWith_refl s : endsWith s s = true.
Proof. destruct s; [by apply endsWith_nil | apply endsWith_cons; by left]. Qed.

Lemma endsWith_spec s p : endsWith s p = true <-> exists q, s = q +:+ p.
Proof.
  split.
  - induction s as [|c s IH].
    + intros ->%endsWith_nil. by exists "".
    + intros [<- | H]%endsWith_cons; [by exists ""|].
      destruct (IH H) as [q ->]. by exists (String c q).
  - intros [q ->]. induction q as [|c q IH]; [apply endsWith_refl|].
    apply endsWith_cons. by right.
Qed.

(** Two suffixes of one string: the shorter one is a suffix of the
    longer one. *)
Lemma endsWith_both s p1 p2 :
  endsWith s p1 = true -> endsWith s p2 = true ->
  endsWith p1 p2 = true \/ endsWith p2 p1 = true.
Proof.
  induction s as [|c s IH].
  - intros ->%endsWith_nil ->%endsWith_nil. by left.
  - intros [<- | H1]%endsWith_cons [<- | H2]%endsWith_cons.
    + left. apply endsWith_refl.
    + left. apply endsWith_cons. by right.
    + right. apply endsWith_cons. by right.
    + auto.
Qed.

Lemma existsb_endsWith_disjoint s (l1 l2 : list string) :
  forallb (fun e1 => forallb (unrelated e1) l2) l1 = true ->
  existsb (endsWith s) l1 && existsb (endsWith s) l2 = false.
Proof.
  intros Hall. apply andb_false_iff.
  destruct (existsb (endsWith s) l1) eqn:E1; [right|by left].
  apply not_true_is_false. intros E2.
  apply existsb_exists in E1 as (e1 & Hin1 & He1).
  apply existsb_exists in E2 as (e2 & Hin2 & He2).
  rewrite forallb_forall in Hall. specialize (Hall e1 Hin1).
  rewrite forallb_forall in Hall. specialize (Hall e2 Hin2).
  unfold unrelated in Hall. apply andb_true_iff in Hall as [A B].
  destruct (endsWith_both s e1 e2 He1 He2) as [H|H]; rewrite H in *; done.
Qed.

(** X10: No URL is of two kinds: the audio, image and PDF extensions exclude
    one another. *)
Theorem file_kinds_exclude_one_another (url : string) :
  isAudioUrl url && isImageUrl url = false
  /\ isAudioUrl url && isPdfUrl url = false
  /\ isImageUrl url && isPdfUrl url = false.
Proof.
  unfold isAudioUrl, isImageUrl, isPdfUrl.
  split; [|split].
  - by apply existsb_endsWith_disjoint.
  - pose proof (existsb_endsWith_disjoint (toLowerCase url)
                  audioExtensions [".pdf"] eq_refl) as H.
    change (existsb (endsWith (toLowerCase url)) [".pdf"])
      with (endsWith (toLowerCase url) ".pdf" || false) in H.
    rewrite orb_false_r in H. exact H.
  - pose proof (existsb_endsWith_disjoint (toLowerCase url)
                  imageExtensions [".pdf"] eq_refl) as H.
    change (existsb (endsWith (toLowerCase url)) [".pdf"])
      with (endsWith (toLowerCase url) ".pdf" || false) in H.
    rewrite orb_false_r in H. exact H.
Qed.


(** *** Resolution and the kind of a file *)

Lemma bucket_url_keeps_file_kind (filename : string) :
  isAudioUrl (getAudioUrl filename) = isAudioUrl filename
  /\ isImageUrl (getImageUrl filename) = isImageUrl filename
  /\ isImageUrl (getThumbnailUrl filename) = isImageUrl filename
  /\ isPdfUrl (getPdfUrl filename) = isPdfUrl filename.
Proof.
  unfold isAudioUrl, isImageUrl, isPdfUrl.
  rewrite getAudioUrl_eq, getImageUrl_eq, getThumbnailUrl_eq, getPdfUrl_eq.
  (* no extension starts in the public URL or the bucket name, so the
     search for a suffix runs through them to the file name *)
  repeat split.
Qed.

(** X11: Resolving a reference does not change its kind: what a resolver
    returns for a reference is an audio, image or PDF URL exactly when the
    reference is, and the placeholders are not images. *)
Theorem resolution_keeps_file_kind (u : string) :
  (forall v, processAudioUrl (Some u) = Some v -> isAudioUrl v = isAudioUrl u)
  /\ isImageUrl (processImageUrl (Some u)) = isImageUrl u
  /\ isImageUrl (processThumbnailUrl (Some u)) = isImageUrl u
  /\ (forall v, processPdfUrl (Some u) = Some v -> isPdfUrl v = isPdfUrl u)
  /\ isImageUrl (processImageUrl None) = false
  /\ isImageUrl (processThumbnailUrl None) = false.
Proof.
  destruct (bucket_url_keeps_file_kind u) as (Ha & Hi & Ht & Hp).
  unfold processAudioUrl, processImageUrl, processThumbnailUrl, processPdfUrl.
  destruct u as [|c u]; [by repeat split|].
  change (negb (truthy (Some (String c u)))) with false. cbv iota.
  destruct (startsWith (String c u) "http");
    repeat split; try done; by intros v [= <-].
Qed.

(** *** Sample audio *)

Section AddSampleAudioUrls.
Variable parseInt : string -> option Z.

Lemma sampleAt_truthy i :
  (0 <= i < 5)%Z -> exists s, sampleAt i = JString s /\ truthy (Some s) = true.
Proof.
  intros Hi. assert (i = 0 \/ i = 1 \/ i = 2 \/ i = 3 \/ i = 4)%Z
    as [->|[->|[->|[->| ->]]]] by lia; by eexists.
Qed.

Lemma sampleAt_outside i : (i < 0)%Z -> sampleAt i = JUndefined.
Proof. intros Hi. unfold sampleAt. by rewrite (proj2 (Z.ltb_lt _ _) Hi). Qed.

Lemma audioIndex_range book index :
  (forall id n, get_str book "id" = Some id -> parseInt id = Some n -> (0 <= n)%Z) ->
  (0 <= audioIndex parseInt book index < 5)%Z.
Proof.
  intros Hid. unfold audioIndex.
  assert (0 <= Z.of_nat index mod 5 < 5)%Z by (apply Z.mod_pos_bound; lia).
  destruct (get_str book "id") as [id|]; [|done].
  destruct (parseInt id) as [n|] eqn:En; [|done].
  specialize (Hid id n eq_refl En).
  destruct (Z.rem n 5 =? 0)%Z; [done|].
  apply Z.rem_bound_pos; lia.
Qed.

(** X12: [addSampleAudioUrls] returns as many books as it is given, in the
    same order; a book that has audio is returned unchanged, and of a
    book that has none only [audioUrl] is written. *)
Theorem addSampleAudioUrls_keeps_books (books : list (gmap string jsval)) :
  length (addSampleAudioUrls parseInt books) = length books
  /\ forall i book,
      books !! i = Some book ->
      exists book',
        addSampleAudioUrls parseInt books !! i = Some book'
        /\ (truthy (get_str book "audioUrl") = true -> book' = book)
        /\ (forall k, k <> "audioUrl" -> book' !! k = book !! k).
Proof.
  unfold addSampleAudioUrls. split; [apply length_imap|].
  intros i book Hi. exists (addSampleAudioUrl parseInt i book).
  rewrite list_lookup_imap, Hi. split; [done|].
  unfold addSampleAudioUrl.
  destruct (truthy (get_str book "audioUrl")); simpl; split; try done.
  intros k Hk. by rewrite lookup_insert_ne.
Qed.

(** X13: When no book id parses to a negative number, every book that
    [addSampleAudioUrls] returns has audio: its own, or one of the five
    samples. *)
Theorem addSampleAudioUrls_gives_audio (books : list (gmap string jsval)) :
  (forall book id n,
      book ∈ books -> get_str book "id" = Some id -> parseInt id = Some n ->
      (0 <= n)%Z) ->
  forall book', book' ∈ addSampleAudioUrls parseInt books ->
    truthy (get_str book' "audioUrl") = true.
Proof.
  intros Hids book' Hin. unfold addSampleAudioUrls in Hin.
  apply elem_of_lookup_imap_1 in Hin as (i & book & -> & Hi).
  unfold addSampleAudioUrl.
  destruct (truthy (get_str book "audioUrl")) eqn:Ht; simpl; [done|].
  destruct (sampleAt_truthy (audioIndex parseInt book i)) as (s & -> & Hs).
  { apply audioIndex_range. intros id n. apply Hids.
    by eapply list_elem_of_lookup_2. }
  unfold get_str. by rewrite lookup_insert_eq.
Qed.

(** X14: A book without audio whose id parses to a negative number that is
    not a multiple of five is given no sample: the index is negative and
    its [audioUrl] is written as [undefined]. *)
Theorem addSampleAudioUrls_negative_id
    (book : gmap string jsval) (index : nat) (id : string) (n : Z) :
  truthy (get_str book "audioUrl") = false ->
  get_str book "id" = Some id ->
  parseInt id = Some n ->
  (n < 0)%Z ->
  Z.rem n 5 <> 0%Z ->
  addSampleAudioUrl parseInt index book !! "audioUrl" = Some JUndefined.
Proof.
  intros Ht Hid Hn Hneg Hrem. unfold addSampleAudioUrl, audioIndex.
  rewrite Ht, Hid, Hn. simpl.
  rewrite (proj2 (Z.eqb_neq _ _) Hrem).
  rewrite lookup_insert_eq, sampleAt_outside; [done|].
  pose proof (Z.rem_bound_neg_pos n 5). pose proof (Z.rem_nonpos n 5). lia.
Qed.

End AddSampleAudioUrls.

Lemma resolution_keeps_file_kind_witness :
  isAudioUrl "chapter1.MP3" = true
  /\ forall v, processAudioUrl (Some "chapter1.MP3") = Some v ->
               isAudioUrl v = isAudioUrl "chapter1.MP3".
Proof.
  split; [reflexivity|].
  exact (proj1 (resolution_keeps_file_kind "chapter1.MP3")).
Defined.

Lemma addSampleAudioUrls_keeps_books_witness :
  length (addSampleAudioUrls BookSamples.sample_parseInt
            [BookSamples.silent_book; BookSamples.audio_book]) = 2
  /\ exists book',
      addSampleAudioUrls BookSamples.sample_parseInt
        [BookSamples.silent_book; BookSamples.audio_book] !! 1 = Some book'
      /\ (truthy (get_str BookSamples.audio_book "audioUrl") = true ->
          book' = BookSamples.audio_book)
      /\ (forall k, k <> "audioUrl" ->
                    book' !! k = BookSamples.audio_book !! k).
Proof.
  destruct (addSampleAudioUrls_keeps_books BookSamples.sample_parseInt
              [BookSamples.silent_book; BookSamples.audio_book]) as [Hl Hb].
  split; [exact Hl|]. apply (Hb 1). reflexivity.
Defined.

Lemma addSampleAudioUrls_gives_audio_witness :
  Forall (fun book' => truthy (get_str book' "audioUrl") = true)
    (addSampleAudioUrls BookSamples.sample_parseInt
       [BookSamples.silent_book; BookSamples.audio_book]).
Proof.
  apply Forall_forall. apply addSampleAudioUrls_gives_audio.
  intros book id n Hin Hid Hn.
  apply elem_of_cons in Hin as [->|Hin].
  - vm_compute in Hid. injection Hid as <-.
    vm_compute in Hn. injection Hn as <-. lia.
  - apply list_elem_of_singleton in Hin as ->.
    vm_compute in Hid. injection Hid as <-.
    vm_compute in Hn. discriminate.
Defined.

Lemma addSampleAudioUrls_negative_id_witness :
  addSampleAudioUrl BookSamples.sample_parseInt 4 BookSamples.negative_book
    !! "audioUrl" = Some JUndefined.
Proof.
  apply (addSampleAudioUrls_negative_id BookSamples.sample_parseInt
           BookSamples.negative_book 4 "-3" (-3)%Z).
  - vm_compute. reflexivity.
  - vm_compute. reflexivity.
  - reflexivity.
  - lia.
  - vm_compute. discriminate.
Defined.

End R2FilesProperties.

(** ** Properties of book records and of the URLs handed on *)
Module BookUrlProperties.
Import R2Config R2Services BookScreen ResolverProperties.

Lemma processBookUrls_fields (book : gmap string jsval) :
  (exists t, processBookUrls book !! "thumbnailUrl" = Some (JString t)
             /\ startsWith t "http" = true)
  /\ (processBookUrls book !! "audioUrl" = Some JUndefined
      \/ exists a, processBookUrls book !! "audioUrl" = Some (JString a)
                   /\ startsWith a "http" = true).
Proof.
  unfold processBookUrls. split.
  - eexists. rewrite lookup_insert_ne by done. rewrite lookup_insert_eq.
    split; [done|]. apply processThumbnailUrl_result.
  - rewrite lookup_insert_eq.
    destruct (truthy (get_str book "audioUrl")); [|by left].
    destruct (processAudioUrl (get_str book "audioUrl")) as [a|] eqn:E;
      [|by left].
    right. exists a. split; [done|]. by eapply processAudioUrl_result.
Qed.

(** X15: In every record that [processBookUrls] returns, [thumbnailUrl] is a
    string that starts with [http], and [audioUrl] is [undefined] or a
    string that starts with [http]. *)
Theorem processBookUrls_urls_are_absolute (book : gmap string jsval) :
  (exists t, processBookUrls book !! "thumbnailUrl" = Some (JString t)
             /\ startsWith t "http" = true)
  /\ (processBookUrls book !! "audioUrl" = Some JUndefined
      \/ exists a, processBookUrls book !! "audioUrl" = Some (JString a)
                   /\ startsWith a "http" = true).
Proof. apply processBookUrls_fields. Qed.

(** X16: [processBookUrls] is idempotent: a record that went through it is
    returned as it is. *)
Theorem processBookUrls_idempotent (book : gmap string jsval) :
  processBookUrls (processBookUrls book) = processBookUrls book.
Proof.
  destruct (processBookUrls_fields book) as [(t & Ht & Hhttp) Ha].
  set (b := processBookUrls book) in *. unfold processBookUrls at 1.
  assert (Hthumb : get_str b "thumbnailUrl" = Some t)
    by (unfold get_str; by rewrite Ht).
  rewrite Hthumb, (processThumbnailUrl_http t Hhttp).
  rewrite (insert_id b "thumbnailUrl") by done.
  destruct Ha as [Ha | (a & Ha & Hah)].
  - assert (get_str b "audioUrl" = None) as -> by (unfold get_str; by rewrite Ha).
    simpl. by apply insert_id.
  - assert (get_str b "audioUrl" = Some a) as -> by (unfold get_str; by rewrite Ha).
    rewrite (startsWith_http_truthy a Hah), (processAudioUrl_http a Hah).
    by apply insert_id.
Qed.

(** X17: [getR2PublicUrl] always returns a string that starts with [http] and
    returns such a string as it is, so resolving twice is resolving
    once. *)
Theorem getR2PublicUrl_idempotent (path : string) :
  startsWith (getR2PublicUrl path) "http" = true
  /\ getR2PublicUrl (getR2PublicUrl path) = getR2PublicUrl path.
Proof.
  assert (H : startsWith (getR2PublicUrl path) "http" = true).
  { unfold getR2PublicUrl. destruct (startsWith path "http") eqn:E; [done|].
    apply public_url_http. }
  split; [done|]. unfold getR2PublicUrl at 1. by rewrite H.
Qed.

(** X18: The bucket helpers never give two files the same URL: each is
    injective in the file name, and URLs of different buckets differ. *)
Theorem bucket_urls_are_distinct (f g : string) :
  (getAudioUrl f = getAudioUrl g -> f = g)
  /\ (getImageUrl f = getImageUrl g -> f = g)
  /\ (getThumbnailUrl f = getThumbnailUrl g -> f = g)
  /\ (getPdfUrl f = getPdfUrl g -> f = g)
  /\ getAudioUrl f <> getImageUrl g
  /\ getAudioUrl f <> getThumbnailUrl g
  /\ getAudioUrl f <> getPdfUrl g
  /\ getImageUrl f <> getThumbnailUrl g
  /\ getImageUrl f <> getPdfUrl g
  /\ getThumbnailUrl f <> getPdfUrl g.
Proof.
  rewrite !getAudioUrl_eq, !getImageUrl_eq, !getThumbnailUrl_eq, !getPdfUrl_eq.
  repeat split; intros H; cbv in H; congruence.
Qed.

(** X19: The URL that the book screen hands to the player: the selected
    chapter's audio if it has one, else the book's; it is [undefined]
    exactly when neither has audio, and otherwise starts with [http]. *)
Theorem player_url_prefers_chapter_audio (chapterAudio bookAudio : jsstr) :
  (truthy chapterAudio = true ->
     playerAudioUrl chapterAudio bookAudio = processAudioUrl chapterAudio)
  /\ (truthy chapterAudio = false ->
     playerAudioUrl chapterAudio bookAudio = processAudioUrl bookAudio)
  /\ (playerAudioUrl chapterAudio bookAudio = None
      <-> truthy chapterAudio = false /\ truthy bookAudio = false)
  /\ (forall u, playerAudioUrl chapterAudio bookAudio = Some u ->
                startsWith u "http" = true).
Proof.
  unfold playerAudioUrl, selectedAudio.
  assert (Hnone : forall r, truthy r = false -> processAudioUrl r = None).
  { intros [[|]|]; done. }
  assert (Hsome : forall r, truthy r = true -> processAudioUrl r <> None).
  { intros [[|c s]|] Hr; try done. unfold processAudioUrl.
    change (negb (truthy (Some (String c s)))) with false. cbv iota.
    by destruct (startsWith (String c s) "http"). }
  split; [|split; [|split]].
  - intros Hc. rewrite Hc. by destruct chapterAudio.
  - intros Hc. rewrite Hc. destruct (truthy bookAudio) eqn:Hb.
    + by destruct bookAudio.
    + by rewrite (Hnone bookAudio Hb).
  - destruct (truthy chapterAudio) eqn:Hc.
    + split; [|by intros []]. intros H. exfalso.
      apply (Hsome chapterAudio Hc). by destruct chapterAudio.
    + destruct (truthy bookAudio) eqn:Hb; [|done].
      split; [|by intros []]. intros H. exfalso.
      apply (Hsome bookAudio Hb). by destruct bookAudio.
  - intros u. apply processAudioUrl_result.
Qed.

Lemma player_url_prefers_chapter_audio_witness :
  truthy (Some "ch1.mp3") = true
  /\ playerAudioUrl (Some "ch1.mp3") (Some "book.mp3")
     = processAudioUrl (Some "ch1.mp3").
Proof.
  split; [reflexivity|].
  apply (proj1 (player_url_prefers_chapter_audio
                  (Some "ch1.mp3") (Some "book.mp3"))).
  reflexivity.
Defined.

End BookUrlProperties.

(** ** Properties of the books with audio *)
Module FirebaseServicesProperties.
Import R2Config R2Services FirebaseServices ResolverProperties.

Lemma get_str_lookup (book : gmap string jsval) k s :
  get_str book k = Some s -> book !! k = Some (JString s).
Proof.
  unfold get_str. destruct (book !! k) as [[]|]; try done. by intros [= ->].
Qed.

Lemma elem_of_slice0 {A : Type} (count : Z) (l : list A) x :
  x ∈ slice0 count l -> x ∈ l.
Proof.
  unfold slice0. destruct (count <? 0)%Z; intros H;
    eapply elem_of_sublist; try exact H; apply sublist_take.
Qed.

Lemma length_slice0 {A : Type} (count : Z) (l : list A) :
  (0 <= count)%Z -> length (slice0 count l) <= Z.to_nat count.
Proof.
  intros Hc. unfold slice0. rewrite (proj2 (Z.ltb_ge _ _) Hc).
  rewrite length_take. lia.
Qed.

(** X20: Every book that [getBooksWithAudio] returns is a book of the query
    that has audio, passed through [processBookUrls], and its [audioUrl]
    is a string that starts with [http], which is what the cast to
    [BookWithAudio] takes for granted; for a count that is not negative
    there are at most [count] of them. *)
Theorem getBooksWithAudio_books_have_audio
    (converted : option (list (gmap string jsval))) (count : Z) :
  (forall book, book ∈ getBooksWithAudio converted count ->
     (exists a, book !! "audioUrl" = Some (JString a)
                /\ startsWith a "http" = true)
     /\ exists books book0,
          converted = Some books /\ book0 ∈ books
          /\ truthy (get_str book0 "audioUrl") = true
          /\ book = processBookUrls book0)
  /\ ((0 <= count)%Z ->
      length (getBooksWithAudio converted count) <= Z.to_nat count).
Proof.
  destruct converted as [books|]; simpl; [|split; [by intros ? ?%elem_of_nil | lia]].
  split.
  - intros book Hin.
    apply list_elem_of_fmap in Hin as (b1 & -> & Hin).
    apply list_elem_of_fmap in Hin as (b0 & -> & Hin).
    apply elem_of_slice0, list_elem_of_In, filter_In in Hin as [Hin Ht].
    apply list_elem_of_In in Hin.
    destruct (get_str b0 "audioUrl") as [a|] eqn:Ea; [|done].
    rewrite Ht. simpl default.
    rewrite (insert_id b0 "audioUrl") by (by apply get_str_lookup).
    split; [|by exists books, b0; rewrite Ea].
    unfold processBookUrls. rewrite lookup_insert_eq, Ea, Ht.
    destruct (processAudioUrl (Some a)) as [v|] eqn:Ev.
    + exists v. split; [done|]. by eapply processAudioUrl_result.
    + exfalso. revert Ev. unfold processAudioUrl.
      rewrite Ht. simpl. by destruct (startsWith a "http").
  - intros Hc. rewrite !length_map. by apply length_slice0.
Qed.

Lemma getBooksWithAudio_books_have_audio_witness :
  (forall book,
      book ∈ getBooksWithAudio
               (Some [BookSamples.silent_book; BookSamples.audio_book;
                      BookSamples.negative_book]) 1 ->
      exists a, book !! "audioUrl" = Some (JString a)
                /\ startsWith a "http" = true)
  /\ length (getBooksWithAudio
               (Some [BookSamples.silent_book; BookSamples.audio_book;
                      BookSamples.negative_book]) 1) <= 1.
Proof.
  destruct (getBooksWithAudio_books_have_audio
              (Some [BookSamples.silent_book; BookSamples.audio_book;
                     BookSamples.negative_book]) 1) as [Hb Hl].
  split; [|apply Hl; lia].
  intros book Hin. exact (proj1 (Hb book Hin)).
Defined.

End FirebaseServicesProperties.

(** ** Properties of the time label *)
Module TimeLabelProperties.
Import AudioPlayerView.

(** The seconds of a label: a zero in front of one digit. *)
Lemma seconds_two_digits (s : Z) :
  (0 <= s < 60)%Z ->
  exists (a b : ascii) (x y : nat),
    (if (s <? 10)%Z then "0" else "") +:+ pretty s = String a (String b "")
    /\ Ascii.is_nat a = Some x /\ Ascii.is_nat b = Some y
    /\ Z.of_nat (10 * x + y) = s.
Proof.
  intros Hs. assert (exists n : nat, n < 60 /\ s = Z.of_nat n) as (n & Hn & ->).
  { exists (Z.to_nat s). lia. }
  clear Hs.
  do 60 (destruct n as [|n];
         [vm_compute; do 4 eexists; repeat split; reflexivity|]).
  lia.
Qed.

Lemma string_length_app (a b : string) :
  String.length (a +:+ b) = String.length a + String.length b.
Proof.
  induction a as [|c a IH]; [done|].
  change (String c a +:+ b) with (String c (a +:+ b)). simpl. by rewrite IH.
Qed.

Lemma app_inj_same_length (x y t t' : string) :
  String.length t = String.length t' ->
  x +:+ t = y +:+ t' -> x = y /\ t = t'.
Proof.
  intros Hlen. revert y. induction x as [|c x IH]; intros [|d y] H.
  - done.
  - exfalso. apply (f_equal String.length) in H.
    rewrite !string_length_app in H. simpl in H. lia.
  - exfalso. apply (f_equal String.length) in H.
    rewrite !string_length_app in H. simpl in H. lia.
  - change (String c x +:+ t) with (String c (x +:+ t)) in H.
    change (String d y +:+ t') with (String d (y +:+ t')) in H.
    injection H as -> H. destruct (IH y H) as [-> ->]. done.
Qed.

Lemma formatTime_shape (milliseconds : Z) :
  (0 <= milliseconds)%Z ->
  exists (a b : ascii) (x y : nat),
    formatTime milliseconds
    = pretty (milliseconds / 1000 / 60)%Z +:+ ":" +:+ String a (String b "")
    /\ Ascii.is_nat a = Some x /\ Ascii.is_nat b = Some y
    /\ (milliseconds / 1000 / 60 * 60 + Z.of_nat (10 * x + y)
        = milliseconds / 1000)%Z.
Proof.
  intros Hms. unfold formatTime.
  set (total := (milliseconds / 1000)%Z).
  assert (Ht : (0 <= total)%Z) by (apply Z.div_pos; lia).
  assert (Hrem : Z.rem total 60 = (total mod 60)%Z) by (apply Z.rem_mod_nonneg; lia).
  rewrite Hrem.
  destruct (seconds_two_digits (total mod 60)%Z) as (a & b & x & y & E & Ha & Hb & Hxy).
  { apply Z.mod_pos_bound. lia. }
  exists a, b, x, y. rewrite E. repeat split; try done.
  rewrite Hxy. pose proof (Z.div_mod total 60). lia.
Qed.


(** X21: For a whole number of milliseconds from 0 to
    [MAX_SAFE_INTEGER], the label is the minutes, a colon and exactly
    two digits, and minutes and digits read back as the whole seconds
    of the position. *)
Theorem formatTime_reads_back (milliseconds : Z) :
  (0 <= milliseconds <= MAX_SAFE_INTEGER)%Z ->
  exists (a b : ascii) (x y : nat),
    formatTime milliseconds
    = pretty (milliseconds / 1000 / 60)%Z +:+ ":" +:+ String a (String b "")
    /\ Ascii.is_nat a = Some x /\ Ascii.is_nat b = Some y
    /\ (milliseconds / 1000 / 60 * 60 + Z.of_nat (10 * x + y)
        = milliseconds / 1000)%Z.
Proof. intros [Hms _]. by apply formatTime_shape. Qed.

(** X22: Two whole numbers of milliseconds from 0 to [MAX_SAFE_INTEGER]
    have the same label exactly when they lie in the same whole
    second. *)
Theorem formatTime_same_second (p q : Z) :
  (0 <= p <= MAX_SAFE_INTEGER)%Z -> (0 <= q <= MAX_SAFE_INTEGER)%Z ->
  formatTime p = formatTime q <-> (p / 1000 = q / 1000)%Z.
Proof.
  intros [Hp _] [Hq _]. split.
  - intros H.
    destruct (formatTime_shape p Hp) as (a & b & x & y & Ep & Ha & Hb & Hx).
    destruct (formatTime_shape q Hq) as (a' & b' & x' & y' & Eq & Ha' & Hb' & Hx').
    rewrite Ep, Eq in H.
    apply app_inj_same_length in H as [Hm Hs]; [|done].
    apply (inj pretty) in Hm. injection Hs as -> ->.
    assert (x = x') by congruence. assert (y = y') by congruence. lia.
  - intros H. unfold formatTime. by rewrite H.
Qed.

Lemma formatTime_reads_back_witness :
  exists (a b : ascii) (x y : nat),
    formatTime 125000
    = pretty (125000 / 1000 / 60)%Z +:+ ":" +:+ String a (String b "")
    /\ Ascii.is_nat a = Some x /\ Ascii.is_nat b = Some y
    /\ (125000 / 1000 / 60 * 60 + Z.of_nat (10 * x + y) = 125000 / 1000)%Z.
Proof. apply formatTime_reads_back. unfold MAX_SAFE_INTEGER. lia. Defined.

Lemma formatTime_same_second_witness :
  formatTime 125000 = formatTime 125999
  <-> (125000 / 1000 = 125999 / 1000)%Z.
Proof. apply formatTime_same_second; unfold MAX_SAFE_INTEGER; lia. Defined.

End TimeLabelProperties.

(** ** Properties of the book card *)
Module BookCardProperties.
Import BookCard.

Lemma step_keeps_flags_equal url ev s :
  isAudioPlaying s = showAudioPlayer s ->
  isAudioPlaying (step url ev s) = showAudioPlayer (step url ev s).
Proof.
  intros H. destruct ev; simpl.
  - destruct (audioButtonShown url); simpl; congruence.
  - by destruct (playerShown url s).
Qed.

Lemma run_keeps_flags_equal url evs : forall s,
  isAudioPlaying s = showAudioPlayer s ->
  isAudioPlaying (run url evs s) = showAudioPlayer (run url evs s).
Proof.
  induction evs as [|ev evs IH]; intros s H; [done|].
  apply (IH (step url ev s)). by apply step_keeps_flags_equal.
Qed.

Lemma run_without_audio url evs : forall s,
  truthy url = false -> run url evs s = s.
Proof.
  induction evs as [|ev evs IH]; intros s H; [done|].
  change (run url (ev :: evs) s) with (run url evs (step url ev s)).
  rewrite IH by done. destruct ev; simpl.
  - unfold audioButtonShown. by rewrite H.
  - unfold playerShown. by rewrite H, andb_false_r.
Qed.

(** X23: Whatever is pressed on a book card, the two flags stay equal, so the
    audio button shows the pause icon exactly while the player is
    rendered. *)
Theorem pause_icon_iff_player_shown (audioUrl : jsstr) (evs : list event) :
  let s := run audioUrl evs initial in
  isAudioPlaying s = showAudioPlayer s
  /\ (audioIcon s = "pause-circle" <-> playerShown audioUrl s = true).
Proof.
  intros s.
  assert (H : isAudioPlaying s = showAudioPlayer s)
    by (by apply run_keeps_flags_equal).
  split; [done|]. unfold audioIcon, playerShown. rewrite <- H.
  destruct (truthy audioUrl) eqn:Hu.
  - rewrite andb_true_r. by destruct (isAudioPlaying s).
  - unfold s. rewrite run_without_audio by done. by simpl.
Qed.

End BookCardProperties.
